(** * Field-emission currents and heating: a shallow embedding

    The program solves a conduction problem and a transient heat problem on a
    copper body with deal.II.  This development embeds, from the C++ sources,

    - [PhysicalQuantities] (physical_quantities.cc): the tabulated resistivity
      with [linear_interp], [deriv_linear_interp], [sigma] and [kappa];
    - [CurrentsAndHeating] (currents_and_heating.cc): the interface maps and
      their setters and getters, the local assembly of the two heat schemes,
      the two solve steps and the two setup steps.

    A C++ [double] is a binary64 number: it is modelled by Rocq's primitive
    [float], whose operations are the IEEE 754 ones, so every formula below
    rounds as the program does when each operation is rounded to binary64
    (no fused multiply-add, no extended precision).  Reading a vector outside
    its range is undefined behaviour in C++ and is [None] here, as is a
    failed [assert]. *)

From Stdlib Require Import Floats ZArith Lia List Bool.
From stdpp Require Import gmap list strings.

Set Warnings "-inexact-float".
Local Open Scope float_scope.

(** ** Order facts on binary64 numbers

    The comparisons of [double] are not a total order ([NaN] compares false
    with everything).  The facts the tables need are derived from the
    specification of the primitive comparisons over [spec_float]. *)
Module FloatOrder.

Lemma SFcompare_antisym (a b : spec_float) :
  SFcompare b a = option_map CompOpp (SFcompare a b).
Proof.
  destruct a as [sa|sa| |sa ma ea], b as [sb|sb| |sb mb eb]; simpl;
    try reflexivity; try (destruct sa; reflexivity);
    try (destruct sb; reflexivity); try (destruct sa, sb; reflexivity).
  destruct sa, sb; simpl; try reflexivity;
    rewrite (Z.compare_antisym ea eb);
    destruct (ea ?= eb)%Z eqn:E; simpl; try reflexivity;
    change (Pos.compare_cont Eq) with Pos.compare;
    rewrite (Pos.compare_antisym ma mb);
    destruct (ma ?= mb)%positive; reflexivity.
Qed.

Definition lex_compare (e1 : Z) (m1 : positive) (e2 : Z) (m2 : positive) : comparison :=
  match (e1 ?= e2)%Z with
  | Eq => Pos.compare_cont Eq m1 m2
  | Lt => Lt
  | Gt => Gt
  end.

Lemma lex_compare_Lt (e1 e2 : Z) (m1 m2 : positive) :
  lex_compare e1 m1 e2 m2 = Lt <-> (e1 < e2 \/ (e1 = e2 /\ m1 < m2)%positive)%Z.
Proof.
  unfold lex_compare. change (Pos.compare_cont Eq) with Pos.compare.
  destruct (Z.compare_spec e1 e2) as [E|E|E].
  - rewrite Pos.compare_lt_iff. split; [auto | intros [H|[_ H]]; [lia | exact H]].
  - split; [auto | reflexivity].
  - split; [discriminate | intros [H|[H _]]; lia].
Qed.

Lemma lex_compare_Gt (e1 e2 : Z) (m1 m2 : positive) :
  lex_compare e1 m1 e2 m2 = Gt <-> (e2 < e1 \/ (e1 = e2 /\ m2 < m1)%positive)%Z.
Proof.
  unfold lex_compare. change (Pos.compare_cont Eq) with Pos.compare.
  destruct (Z.compare_spec e1 e2) as [E|E|E].
  - rewrite Pos.compare_gt_iff. split; [auto | intros [H|[_ H]]; [lia | exact H]].
  - split; [discriminate | intros [H|[H _]]; lia].
  - split; [auto | reflexivity].
Qed.

Lemma SFcompare_finite (s1 s2 : bool) (m1 m2 : positive) (e1 e2 : Z) :
  SFcompare (S754_finite s1 m1 e1) (S754_finite s2 m2 e2) =
  Some (if s1 then if s2 then CompOpp (lex_compare e1 m1 e2 m2) else Lt
        else if s2 then Gt else lex_compare e1 m1 e2 m2).
Proof.
  unfold lex_compare. simpl.
  destruct s1, s2; try reflexivity. destruct (e1 ?= e2)%Z; reflexivity.
Qed.

Lemma SFcompare_Lt_trans (a b c : spec_float) :
  SFcompare a b = Some Lt -> SFcompare b c = Some Lt -> SFcompare a c = Some Lt.
Proof.
  destruct a as [sa|sa| |sa ma ea], b as [sb|sb| |sb mb eb],
           c as [sc|sc| |sc mc ec];
    rewrite ?SFcompare_finite; simpl; intros H1 H2;
    try discriminate;
    repeat match goal with s : bool |- _ => destruct s end;
    try discriminate; try reflexivity;
    injection H1 as H1; injection H2 as H2; f_equal.
  - destruct (lex_compare ea ma eb mb) eqn:E1; try discriminate.
    destruct (lex_compare eb mb ec mc) eqn:E2; try discriminate.
    apply lex_compare_Gt in E1, E2.
    replace (lex_compare ea ma ec mc) with Gt; [reflexivity|].
    symmetry. apply lex_compare_Gt. lia.
  - apply lex_compare_Lt in H1, H2. apply lex_compare_Lt. lia.
Qed.

Lemma SFcompare_refl (a : spec_float) :
  SFcompare a a = None \/ SFcompare a a = Some Eq.
Proof.
  destruct a as [s|s| |s m e]; simpl; auto.
  - destruct s; auto.
  - right. change (Pos.compare_cont Eq) with Pos.compare.
    destruct s; rewrite Z.compare_refl, Pos.compare_refl; reflexivity.
Qed.

Lemma SFcompare_None_l (a b : spec_float) :
  SFcompare a a = Some Eq -> SFcompare b b = Some Eq -> SFcompare a b <> None.
Proof. destruct a, b; simpl; congruence. Qed.

Lemma lex_compare_Eq (e1 e2 : Z) (m1 m2 : positive) :
  lex_compare e1 m1 e2 m2 = Eq -> e1 = e2 /\ m1 = m2.
Proof.
  unfold lex_compare. change (Pos.compare_cont Eq) with Pos.compare.
  destruct (Z.compare_spec e1 e2) as [E|E|E]; try discriminate.
  intros H. apply Pos.compare_eq in H. auto.
Qed.

Lemma SFcompare_Eq_r (a b c : spec_float) :
  SFcompare b c = Some Eq -> SFcompare a b = SFcompare a c.
Proof.
  destruct b as [sb|sb| |sb mb eb], c as [sc|sc| |sc mc ec];
    rewrite ?SFcompare_finite; simpl; intros H;
    try discriminate;
    repeat match goal with s : bool |- _ => destruct s end;
    try discriminate; try reflexivity;
    try (destruct a; reflexivity);
    injection H as H.
  - destruct (lex_compare eb mb ec mc) eqn:E; try discriminate.
    apply lex_compare_Eq in E as [-> ->]. reflexivity.
  - apply lex_compare_Eq in H as [-> ->]. reflexivity.
Qed.

(** The facts on [float] itself. *)

Lemma is_nan_false (a : float) :
  is_nan a = false <-> SFcompare (Prim2SF a) (Prim2SF a) = Some Eq.
Proof.
  unfold is_nan. rewrite FloatAxioms.eqb_spec. unfold SFeqb.
  destruct (SFcompare_refl (Prim2SF a)) as [H|H]; rewrite H; simpl;
    split; congruence.
Qed.

Lemma ltb_Lt (a b : float) :
  (a <? b) = true <-> SFcompare (Prim2SF a) (Prim2SF b) = Some Lt.
Proof.
  rewrite ltb_spec. unfold SFltb.
  destruct (SFcompare (Prim2SF a) (Prim2SF b)) as [[]|]; split; congruence.
Qed.

Lemma ltb_trans (a b c : float) :
  (a <? b) = true -> (b <? c) = true -> (a <? c) = true.
Proof. rewrite !ltb_Lt. apply SFcompare_Lt_trans. Qed.

Lemma ltb_not_nan (a b : float) :
  (a <? b) = true -> is_nan a = false /\ is_nan b = false.
Proof.
  rewrite ltb_Lt, !is_nan_false.
  destruct (SFcompare_refl (Prim2SF a)) as [Ha|Ha],
           (SFcompare_refl (Prim2SF b)) as [Hb|Hb]; auto;
    destruct (Prim2SF a), (Prim2SF b); simpl in *; congruence.
Qed.

Lemma ltb_leb_false (a b : float) : (a <? b) = true -> (b <=? a) = false.
Proof.
  rewrite ltb_Lt, leb_spec. unfold SFleb. intros H.
  rewrite SFcompare_antisym, H. reflexivity.
Qed.

Lemma ltb_asym (a b : float) : (a <? b) = true -> (b <? a) = false.
Proof.
  rewrite ltb_Lt, ltb_spec. unfold SFltb. intros H.
  rewrite SFcompare_antisym, H. reflexivity.
Qed.

Lemma ltb_leb (a b : float) : (a <? b) = true -> (a <=? b) = true.
Proof. rewrite ltb_Lt, leb_spec. unfold SFleb. intros ->. reflexivity. Qed.

Lemma leb_refl (a : float) : is_nan a = false -> (a <=? a) = true.
Proof. rewrite is_nan_false, leb_spec. unfold SFleb. intros ->. reflexivity. Qed.

Lemma leb_false_ltb (a b : float) :
  is_nan a = false -> is_nan b = false -> (a <=? b) = false -> (b <? a) = true.
Proof.
  rewrite !is_nan_false, leb_spec, ltb_Lt. unfold SFleb. intros Ha Hb.
  pose proof (SFcompare_None_l _ _ Ha Hb) as Hn.
  rewrite (SFcompare_antisym (Prim2SF a) (Prim2SF b)).
  destruct (SFcompare (Prim2SF a) (Prim2SF b)) as [[]|]; simpl; congruence.
Qed.

Lemma ltb_false_leb (a b : float) :
  is_nan a = false -> is_nan b = false -> (a <? b) = false -> (b <=? a) = true.
Proof.
  rewrite !is_nan_false, leb_spec, ltb_spec. unfold SFleb, SFltb. intros Ha Hb.
  pose proof (SFcompare_None_l _ _ Ha Hb) as Hn.
  rewrite (SFcompare_antisym (Prim2SF a) (Prim2SF b)).
  destruct (SFcompare (Prim2SF a) (Prim2SF b)) as [[]|]; simpl; congruence.
Qed.

Lemma ltb_leb_trans (a b c : float) :
  (a <? b) = true -> (b <=? c) = true -> (a <? c) = true.
Proof.
  rewrite !ltb_Lt, leb_spec. unfold SFleb. intros H1 H2.
  destruct (SFcompare (Prim2SF b) (Prim2SF c)) as [[]|] eqn:E; try discriminate.
  - rewrite <- (SFcompare_Eq_r _ _ _ E). exact H1.
  - eapply SFcompare_Lt_trans; eassumption.
Qed.

Lemma ltb_irrefl (a : float) : (a <? a) = false.
Proof.
  destruct (a <? a) eqn:E; [|reflexivity].
  pose proof (ltb_asym _ _ E). congruence.
Qed.

(** [NaN] compares false with everything. *)
Lemma SFcompare_nan (a b : spec_float) :
  SFcompare a a = None -> SFcompare a b = None /\ SFcompare b a = None.
Proof.
  destruct a as [sa|sa| |sa ma ea]; rewrite ?SFcompare_finite; simpl;
    try discriminate; try (destruct sa; discriminate).
  intros _. destruct b; split; reflexivity.
Qed.

Lemma is_nan_true (a : float) :
  is_nan a = true -> SFcompare (Prim2SF a) (Prim2SF a) = None.
Proof.
  unfold is_nan. rewrite FloatAxioms.eqb_spec. unfold SFeqb.
  destruct (SFcompare_refl (Prim2SF a)) as [H|H]; rewrite H; simpl;
    [reflexivity | discriminate].
Qed.

Lemma nan_compare (a b : float) :
  is_nan a = true ->
  (a <=? b) = false /\ (b <=? a) = false /\ (a <? b) = false /\ (b <? a) = false.
Proof.
  intros Ha. apply is_nan_true in Ha.
  destruct (SFcompare_nan (Prim2SF a) (Prim2SF b) Ha) as [H1 H2].
  rewrite !leb_spec, !ltb_spec. unfold SFleb, SFltb. rewrite H1, H2. auto.
Qed.

(** Two numbers are always comparable. *)
Lemma leb_total (a b : float) :
  is_nan a = false -> is_nan b = false -> (a <=? b) = true \/ (b <=? a) = true.
Proof.
  intros Ha Hb. destruct (a <=? b) eqn:E; [left; reflexivity|].
  right. apply ltb_leb, leb_false_ltb; assumption.
Qed.

Lemma leb_not_nan (a b : float) :
  (a <=? b) = true -> is_nan a = false /\ is_nan b = false.
Proof.
  rewrite leb_spec, !is_nan_false. unfold SFleb.
  destruct (SFcompare_refl (Prim2SF a)) as [Ha|Ha],
           (SFcompare_refl (Prim2SF b)) as [Hb|Hb]; auto;
    destruct (Prim2SF a), (Prim2SF b); simpl in *; congruence.
Qed.

Lemma is_nan_Prim2SF (a : float) : is_nan a = true -> Prim2SF a = S754_nan.
Proof.
  intros Ha. apply is_nan_true in Ha.
  destruct (Prim2SF a) as [s|s| |s m e]; rewrite ?SFcompare_finite in Ha;
    simpl in Ha; try reflexivity; try discriminate; destruct s; discriminate.
Qed.

End FloatOrder.

(** ** physical_quantities.cc *)
Module PhysicalQuantities.

(** [std::vector<std::pair<double, double>>]: the samples (x, y) of a table. *)
Abbreviation Table := (list (float * float)).

(** The lambda [pair_comp] of [linear_interp] and [deriv_linear_interp]. *)
Definition pair_comp (lhs rhs : float * float) : bool := lhs.1 <? rhs.1.

(** [std::lower_bound(data.begin(), data.end(), value, pair_comp)]: the
    halving loop of the C++ standard library over the positions
    [first, first + count); [fuel] bounds the number of turns and the length of
    the range suffices.  Positions are indices from [data.begin()]. *)
Fixpoint lower_bound_loop (fuel : nat) (data : Table) (value : float * float)
    (first count : nat) : nat :=
  match fuel with
  | O => first
  | S fuel' =>
      if (count =? 0)%nat then first
      else
        let step := (count / 2)%nat in
        let it := (first + step)%nat in
        match data !! it with
        | Some d =>
            if pair_comp d value
            then lower_bound_loop fuel' data value (S it) (count - (step + 1))
            else lower_bound_loop fuel' data value first step
        | None => first (* not reached: [it] lies inside the range *)
        end
  end.

Definition lower_bound (data : Table) (value : float * float) : nat :=
  lower_bound_loop (length data) data value 0 (length data).

(** [it - 1] for an iterator at index [it]; there is no position before
    [data.begin()]. *)
Definition prev_sample (data : Table) (it : nat) : option (float * float) :=
  match it with
  | O => None
  | S i => data !! i
  end.

Definition linear_interp (x : float) (data : Table) : option float :=
  d0 ← data !! 0%nat;
  dl ← last data;
  if x <=? d0.1 then Some d0.2
  else if dl.1 <=? x then Some dl.2
  else
    let it1 := lower_bound data (x, 0) in
    p1 ← data !! it1;
    p2 ← prev_sample data it1;
    Some (p2.2 + (p1.2 - p2.2) * (x - p2.1) / (p1.1 - p2.1)).

Definition evaluate_derivative (data : Table) (it : nat) : option float :=
  if (it =? 0)%nat then
    p ← data !! it; pn ← data !! (it + 1)%nat;
    Some ((pn.2 - p.2) / (pn.1 - p.1))
  else if (it =? length data - 1)%nat then
    p ← data !! it; pp ← data !! (it - 1)%nat;
    Some ((p.2 - pp.2) / (p.1 - pp.1))
  else
    pn ← data !! (it + 1)%nat; pp ← data !! (it - 1)%nat;
    Some ((pn.2 - pp.2) / (pn.1 - pp.1)).

Definition eps : float := 1e-10.

(** The two clamping statements at the head of [deriv_linear_interp]. *)
Definition deriv_clamp (x : float) (data : Table) : option float :=
  d0 ← data !! 0%nat;
  dl ← last data;
  let x := if x <=? d0.1 then d0.1 + eps else x in
  let x := if dl.1 <=? x then dl.1 else x in
  Some x.

Definition deriv_linear_interp (x : float) (data : Table) : option float :=
  x ← deriv_clamp x data;
  let it := lower_bound data (x, 0) in
  p ← data !! it;
  pp ← prev_sample data it;
  dit ← evaluate_derivative data it;
  ditp ← evaluate_derivative data (it - 1);
  Some (ditp + (dit - ditp) * (x - pp.1) / (p.1 - pp.1)).

(** The two statements [if (temperature < 200) temperature = 200;
    if (temperature > 1400) temperature = 1400;] that open [sigma], [dsigma],
    [kappa] and [dkappa]. *)
Definition clamp_temperature (temperature : float) : float :=
  let temperature := if temperature <? 200 then 200 else temperature in
  if 1400 <? temperature then 1400 else temperature.

Definition lorentz : float := 2.443e-8.

Section Quantities.
(** The member [resistivity_data]. *)
Variable resistivity_data : Table.

Definition evaluate_resistivity (temperature : float) : option float :=
  (fun v => v * 1.0e9) <$> linear_interp temperature resistivity_data.

Definition evaluate_resistivity_derivative (temperature : float) : option float :=
  (fun v => v * 1.0e9) <$> deriv_linear_interp temperature resistivity_data.

Definition sigma (temperature : float) : option float :=
  let temperature := clamp_temperature temperature in
  rho ← evaluate_resistivity temperature;
  Some (1.0 / rho).

Definition dsigma (temperature : float) : option float :=
  let temperature := clamp_temperature temperature in
  rho ← evaluate_resistivity temperature;
  drho ← evaluate_resistivity_derivative temperature;
  Some (- drho / (rho * rho)).

Definition kappa (temperature : float) : option float :=
  let temperature := clamp_temperature temperature in
  s ← sigma temperature;
  Some (lorentz * temperature * s).

Definition dkappa (temperature : float) : option float :=
  let temperature := clamp_temperature temperature in
  s ← sigma temperature;
  ds ← dsigma temperature;
  Some (lorentz * (s + temperature * ds)).
End Quantities.

(** Tables as the claims speak of them: at least one sample, no [NaN]
    abscissa, abscissae strictly increasing. *)
Fixpoint strictly_increasing (data : Table) : bool :=
  match data with
  | p :: (q :: _) as rest => (p.1 <? q.1) && strictly_increasing rest
  | _ => true
  end.

Definition sample_table (data : Table) : bool :=
  negb (length data =? 0)%nat
  && forallb (fun d => negb (is_nan d.1)) data
  && strictly_increasing data.

(** *** Sorted tables and the binary search *)

Lemma strictly_increasing_tail (p : float * float) (data : Table) :
  strictly_increasing (p :: data) = true -> strictly_increasing data = true.
Proof.
  destruct data as [|q rest]; [reflexivity|].
  simpl. intros H. apply andb_true_iff in H. tauto.
Qed.

Lemma strictly_increasing_head (data : Table) :
  forall (p q : float * float) (j : nat),
    strictly_increasing (p :: data) = true ->
    data !! j = Some q -> (p.1 <? q.1) = true.
Proof.
  induction data as [|r rest IH]; intros p q j Hs Hj; [discriminate|].
  simpl in Hs. apply andb_true_iff in Hs as [Hpr Hrest].
  destruct j as [|j]; simpl in Hj.
  - injection Hj as <-. exact Hpr.
  - apply FloatOrder.ltb_trans with (b := r.1); [exact Hpr|].
    apply (IH r q j); assumption.
Qed.

Lemma strictly_increasing_lookup (data : Table) :
  forall (i j : nat) (p q : float * float),
    strictly_increasing data = true -> (i < j)%nat ->
    data !! i = Some p -> data !! j = Some q -> (p.1 <? q.1) = true.
Proof.
  induction data as [|r rest IH]; intros i j p q Hs Hij Hi Hj; [discriminate|].
  destruct j as [|j]; [lia|].
  destruct i as [|i]; simpl in Hi, Hj.
  - injection Hi as <-. eapply strictly_increasing_head; eassumption.
  - apply (IH i j); try assumption; [|lia].
    eapply strictly_increasing_tail; eassumption.
Qed.

(** Whether the sample at position [i] compares below [value]. *)
Definition less_at (data : Table) (value : float * float) (i : nat) : bool :=
  match data !! i with
  | Some d => pair_comp d value
  | None => false
  end.

Lemma less_at_downward (data : Table) (value : float * float) :
  strictly_increasing data = true ->
  forall i j : nat, (i <= j)%nat ->
    less_at data value j = true -> less_at data value i = true.
Proof.
  intros Hs i j Hij. unfold less_at.
  destruct (data !! j) as [q|] eqn:Hj; [|discriminate].
  assert (Hlt : (i < length data)%nat)
    by (apply lookup_lt_Some in Hj; lia).
  apply lookup_lt_is_Some in Hlt as [p Hi]. rewrite Hi.
  destruct (decide (i = j)) as [->|Hne]; [congruence|].
  unfold pair_comp. intros Hq.
  apply FloatOrder.ltb_trans with (b := q.1); [|exact Hq].
  apply (strictly_increasing_lookup data i j); auto with lia.
Qed.

Lemma lower_bound_loop_spec (data : Table) (value : float * float) :
  (forall i j : nat, (i <= j)%nat ->
     less_at data value j = true -> less_at data value i = true) ->
  forall fuel first count : nat,
    (count <= fuel)%nat -> (first + count <= length data)%nat ->
    (forall i, (i < first)%nat -> less_at data value i = true) ->
    (forall i, (first + count <= i)%nat -> less_at data value i = false) ->
    let m := lower_bound_loop fuel data value first count in
    (forall i, (i < m)%nat -> less_at data value i = true) /\
    (forall i, (m <= i)%nat -> less_at data value i = false) /\
    (m <= length data)%nat.
Proof.
  intros Hmono. induction fuel as [|fuel IH]; intros first count Hf Hlen Hlo Hhi.
  - cbv zeta. cbn [lower_bound_loop].
    replace (first + count)%nat with first in Hhi by lia.
    repeat split; auto with lia.
  - cbv zeta. cbn [lower_bound_loop]. destruct (count =? 0)%nat eqn:Hc.
    + apply Nat.eqb_eq in Hc. subst count.
      replace (first + 0)%nat with first in Hhi by lia.
      repeat split; auto with lia.
    + apply Nat.eqb_neq in Hc.
      assert (Hstep : (count / 2 < count)%nat) by (apply Nat.div_lt; lia).
      assert (Hit : (first + count / 2 < length data)%nat) by lia.
      apply lookup_lt_is_Some in Hit as [d Hd]. rewrite Hd.
      destruct (pair_comp d value) eqn:Hcmp.
      * apply IH; try lia.
        -- intros i Hi. apply (Hmono i (first + count / 2)%nat); [lia|].
           unfold less_at. rewrite Hd. exact Hcmp.
        -- intros i Hi. apply Hhi. lia.
      * apply IH; try lia; [exact Hlo|].
        intros i Hi. destruct (less_at data value i) eqn:Hl; [|reflexivity].
        apply (Hmono (first + count / 2)%nat i) in Hl; [|lia].
        unfold less_at in Hl. rewrite Hd in Hl. congruence.
Qed.

(** On a sorted table [lower_bound] returns the first position whose
    abscissa is not below [x]. *)
Lemma lower_bound_spec (data : Table) (x y : float) :
  strictly_increasing data = true ->
  let m := lower_bound data (x, y) in
  (m <= length data)%nat /\
  (forall i d, (i < m)%nat -> data !! i = Some d -> (d.1 <? x) = true) /\
  (forall i d, (m <= i)%nat -> data !! i = Some d -> (d.1 <? x) = false).
Proof.
  intros Hs m.
  destruct (lower_bound_loop_spec data (x, y) (less_at_downward data (x, y) Hs)
              (length data) 0%nat (length data)) as (Hlo & Hhi & Hm);
    try lia.
  - intros i Hi. unfold less_at. rewrite lookup_ge_None_2; [reflexivity|lia].
  - fold (lower_bound data (x, y)) in Hlo, Hhi, Hm. fold m in Hlo, Hhi, Hm.
    split; [exact Hm|]. split; intros i d Hi Hd.
    + specialize (Hlo i Hi). unfold less_at in Hlo. rewrite Hd in Hlo. exact Hlo.
    + specialize (Hhi i Hi). unfold less_at in Hhi. rewrite Hd in Hhi. exact Hhi.
Qed.

(** The position found when [x] lies in the bracket ([lo], [hi]] of two
    adjacent samples. *)
Lemma lower_bound_bracket (data : Table) (x y : float) (k : nat)
    (lo hi : float * float) :
  strictly_increasing data = true ->
  data !! k = Some lo -> data !! S k = Some hi ->
  (lo.1 <? x) = true -> (x <=? hi.1) = true ->
  lower_bound data (x, y) = S k.
Proof.
  intros Hs Hlo Hhi Hlt Hle.
  destruct (lower_bound_spec data x y Hs) as (Hm & Hbelow & Habove).
  set (m := lower_bound data (x, y)) in *.
  destruct (Nat.lt_trichotomy m (S k)) as [Hc|[Hc|Hc]]; [|exact Hc|].
  - specialize (Habove k lo ltac:(lia) Hlo). congruence.
  - specialize (Hbelow (S k) hi Hc Hhi).
    apply FloatOrder.ltb_leb_false in Hbelow. congruence.
Qed.

(** *** Facts on well-formed tables *)

Lemma sample_table_inv (data : Table) :
  sample_table data = true ->
  (0 < length data)%nat /\ strictly_increasing data = true /\
  (forall i d, data !! i = Some d -> is_nan d.1 = false).
Proof.
  unfold sample_table. rewrite !andb_true_iff, negb_true_iff, Nat.eqb_neq.
  intros [[Hn Hall] Hs]. split; [lia|]. split; [exact Hs|].
  intros i d Hd. rewrite forallb_forall in Hall.
  specialize (Hall d). rewrite negb_true_iff in Hall. apply Hall.
  apply list_elem_of_In. eapply list_elem_of_lookup_2. exact Hd.
Qed.

Lemma first_le_sample (data : Table) (i : nat) (d0 d : float * float) :
  sample_table data = true ->
  data !! 0%nat = Some d0 -> data !! i = Some d -> (d0.1 <=? d.1) = true.
Proof.
  intros Ht H0 Hi. destruct (sample_table_inv data Ht) as (_ & Hs & Hnan).
  destruct i as [|i].
  - assert (d = d0) by congruence. subst d.
    apply FloatOrder.leb_refl. eapply Hnan. exact H0.
  - apply FloatOrder.ltb_leb.
    apply (strictly_increasing_lookup data 0 (S i)); auto with lia.
Qed.

Lemma sample_le_last (data : Table) (i : nat) (d dl : float * float) :
  sample_table data = true ->
  data !! i = Some d -> last data = Some dl -> (d.1 <=? dl.1) = true.
Proof.
  intros Ht Hi Hl. destruct (sample_table_inv data Ht) as (_ & Hs & Hnan).
  rewrite last_lookup in Hl. pose proof (lookup_lt_Some _ _ _ Hi) as Hlt.
  destruct (decide (i = pred (length data))) as [->|Hne].
  - assert (d = dl) by congruence. subst d.
    apply FloatOrder.leb_refl. eapply Hnan. exact Hi.
  - apply FloatOrder.ltb_leb.
    apply (strictly_increasing_lookup data i (pred (length data))); auto with lia.
Qed.

(** Inside the table, strictly above the first abscissa and strictly below the
    last one, [linear_interp] reaches its last statement. *)
Lemma linear_interp_inner (data : Table) (x : float) (d0 dl : float * float) :
  data !! 0%nat = Some d0 -> last data = Some dl ->
  (d0.1 <? x) = true -> (x <? dl.1) = true ->
  linear_interp x data =
    (let it1 := lower_bound data (x, 0) in
     p1 ← data !! it1; p2 ← prev_sample data it1;
     Some (p2.2 + (p1.2 - p2.2) * (x - p2.1) / (p1.1 - p2.1))).
Proof.
  intros H0 Hl Hlo Hhi. unfold linear_interp. rewrite H0, Hl. simpl.
  rewrite (FloatOrder.ltb_leb_false _ _ Hlo), (FloatOrder.ltb_leb_false _ _ Hhi).
  reflexivity.
Qed.

Lemma linear_interp_bracket (data : Table) (x : float) (k : nat)
    (lo hi dl : float * float) :
  sample_table data = true -> last data = Some dl ->
  data !! k = Some lo -> data !! S k = Some hi ->
  (lo.1 <? x) = true -> (x <=? hi.1) = true -> (x <? dl.1) = true ->
  linear_interp x data =
    Some (lo.2 + (hi.2 - lo.2) * (x - lo.1) / (hi.1 - lo.1)).
Proof.
  intros Ht Hl Hlo Hhi Hlt Hle Hlast.
  destruct (sample_table_inv data Ht) as (Hlen & Hs & Hnan).
  destruct (lookup_lt_is_Some_2 data 0%nat Hlen) as [d0 H0].
  rewrite (linear_interp_inner data x d0 dl H0 Hl); [| |exact Hlast].
  - rewrite (lower_bound_bracket data x 0 k lo hi Hs Hlo Hhi Hlt Hle).
    cbv zeta. rewrite Hhi. simpl. rewrite Hlo. reflexivity.
  - destruct (d0.1 <? x) eqn:E; [reflexivity|].
    pose proof (first_le_sample data k d0 lo Ht H0 Hlo) as Hfl.
    destruct (FloatOrder.ltb_not_nan _ _ Hlt) as [Hn1 Hn2].
    assert (Hxd : (x <=? d0.1) = true).
    { apply FloatOrder.ltb_false_leb; [eapply Hnan; exact H0 | exact Hn2 | exact E]. }
    pose proof (FloatOrder.ltb_leb_trans _ _ _ Hlt Hxd) as Hc.
    apply FloatOrder.ltb_leb_false in Hc. congruence.
Qed.

Ltac float_neq H :=
  apply (f_equal (fun o : option float =>
                    match o with Some v => Prim2SF v | None => S754_nan end)) in H;
  vm_compute in H; discriminate H.

(** C4 as stated, for an interior sample point: the value returned is not the
    sample's ordinate.  With the samples (0, 1e16), (1, 1), (2, 0) and
    [x = 1] the bracket is the first two samples and the function returns
    [1e16 + (1 - 1e16) * (1 - 0) / (1 - 0)]; the difference [1 - 1e16] rounds
    to [-1e16], so the result is [0] and not [1]. *)
Lemma linear_interp_sample_point_inexact :
  ~ (forall (data : Table) (k : nat) (d : float * float),
       sample_table data = true -> data !! k = Some d ->
       linear_interp d.1 data = Some d.2).
Proof.
  intros H.
  specialize (H [(0, 1e16); (1, 1); (2, 0)] 1%nat (1, 1) eq_refl eq_refl).
  float_neq H.
Qed.

(** C4 (amended).  On a table of strictly increasing abscissae,
    [linear_interp x] is the first ordinate for every [x <= x_min] and the
    last ordinate for every [x >= x_max]; at the first and at the last sample
    point it is that sample's ordinate exactly; for [x] strictly between two
    adjacent samples it is the linear interpolation between them, the bracket
    being the one the binary search finds; and at an interior sample point
    [x_k] it is the same formula on the bracket ending at [x_k], evaluated in
    [double] arithmetic (equal to [y_k] only up to rounding). *)
Theorem linear_interp_spec (data : Table) (d0 dl : float * float) :
  sample_table data = true ->
  data !! 0%nat = Some d0 -> last data = Some dl ->
  (forall x, (x <=? d0.1) = true -> linear_interp x data = Some d0.2) /\
  (forall x, (dl.1 <=? x) = true -> linear_interp x data = Some dl.2) /\
  linear_interp d0.1 data = Some d0.2 /\
  linear_interp dl.1 data = Some dl.2 /\
  (forall x k lo hi,
     data !! k = Some lo -> data !! S k = Some hi ->
     (lo.1 <? x) = true -> (x <? hi.1) = true ->
     lower_bound data (x, 0) = S k /\
     linear_interp x data =
       Some (lo.2 + (hi.2 - lo.2) * (x - lo.1) / (hi.1 - lo.1))) /\
  (forall k lo hi,
     data !! k = Some lo -> data !! S k = Some hi ->
     (S k < length data - 1)%nat ->
     lower_bound data (hi.1, 0) = S k /\
     linear_interp hi.1 data =
       Some (lo.2 + (hi.2 - lo.2) * (hi.1 - lo.1) / (hi.1 - lo.1))).
Proof.
  intros Ht H0 Hl.
  destruct (sample_table_inv data Ht) as (Hlen & Hs & Hnan).
  assert (Hlow : forall x, (x <=? d0.1) = true -> linear_interp x data = Some d0.2).
  { intros x Hx. unfold linear_interp. rewrite H0, Hl. simpl. rewrite Hx.
    reflexivity. }
  assert (Hhigh : forall x, (dl.1 <=? x) = true -> linear_interp x data = Some dl.2).
  { intros x Hx. unfold linear_interp. rewrite H0, Hl. simpl. rewrite Hx.
    destruct (x <=? d0.1) eqn:E; [|reflexivity].
    pose proof Hl as Hl'. rewrite last_lookup in Hl'.
    destruct (decide (pred (length data) = 0%nat)) as [Hz|Hz].
    - rewrite Hz in Hl'. congruence.
    - assert (Hlt : (d0.1 <? dl.1) = true)
        by (apply (strictly_increasing_lookup data 0 (pred (length data)));
            auto with lia).
      pose proof (FloatOrder.ltb_leb_trans _ _ _ Hlt Hx) as Hc.
      apply FloatOrder.ltb_leb_false in Hc. congruence. }
  split; [exact Hlow|]. split; [exact Hhigh|].
  split; [apply Hlow, FloatOrder.leb_refl; eapply Hnan; exact H0|].
  split.
  { apply Hhigh, FloatOrder.leb_refl. rewrite last_lookup in Hl.
    eapply Hnan; exact Hl. }
  split.
  - intros x k lo hi Hlo Hhi Hlt Hgt.
    pose proof (FloatOrder.ltb_leb _ _ Hgt) as Hle.
    split; [apply (lower_bound_bracket data x 0 k lo hi); assumption|].
    apply (linear_interp_bracket data x k lo hi dl); try assumption.
    apply FloatOrder.ltb_leb_trans with (b := hi.1); [exact Hgt|].
    eapply sample_le_last; eassumption.
  - intros k lo hi Hlo Hhi Hk.
    assert (Hlt : (lo.1 <? hi.1) = true)
      by (apply (strictly_increasing_lookup data k (S k)); auto with lia).
    assert (Hle : (hi.1 <=? hi.1) = true)
      by (apply FloatOrder.leb_refl; eapply Hnan; exact Hhi).
    split; [apply (lower_bound_bracket data hi.1 0 k lo hi); assumption|].
    apply (linear_interp_bracket data hi.1 k lo hi dl); try assumption.
    rewrite last_lookup in Hl.
    apply (strictly_increasing_lookup data (S k) (pred (length data)));
      auto with lia.
Qed.

Definition table3 : Table := [(0, 1e16); (1, 1); (2, 0)].

Lemma linear_interp_spec_witness :
  linear_interp (-1) table3 = Some 1e16 /\
  linear_interp 7 table3 = Some 0 /\
  linear_interp 0.5 table3 = Some (1e16 + (1 - 1e16) * (0.5 - 0) / (1 - 0)) /\
  linear_interp 1 table3 = Some (1e16 + (1 - 1e16) * (1 - 0) / (1 - 0)).
Proof.
  destruct (linear_interp_spec table3 (0, 1e16) (2, 0) eq_refl eq_refl eq_refl)
    as (Hlow & Hhigh & _ & _ & Hmid & Hpt).
  split; [exact (Hlow (-1) eq_refl)|].
  split; [exact (Hhigh 7 eq_refl)|].
  split.
  - exact (proj2 (Hmid 0.5 0%nat (0, 1e16) (1, 1) eq_refl eq_refl eq_refl eq_refl)).
  - exact (proj2 (Hpt 0%nat (0, 1e16) (1, 1) eq_refl eq_refl ltac:(simpl; lia))).
Defined.

(** *** The derivative of the interpolant *)

(** The difference quotient through two samples. *)
Definition slope (p q : float * float) : float := (q.2 - p.2) / (q.1 - p.1).

Lemma evaluate_derivative_first (data : Table) (p q : float * float) :
  data !! 0%nat = Some p -> data !! 1%nat = Some q ->
  evaluate_derivative data 0 = Some (slope p q).
Proof. intros Hp Hq. unfold evaluate_derivative. simpl. rewrite Hp, Hq. reflexivity. Qed.

Lemma evaluate_derivative_last (data : Table) (k : nat) (p q : float * float) :
  data !! k = Some p -> data !! S k = Some q -> S k = (length data - 1)%nat ->
  evaluate_derivative data (S k) = Some (slope p q).
Proof.
  intros Hp Hq Hk. unfold evaluate_derivative.
  replace (S k =? 0)%nat with false by reflexivity.
  rewrite (proj2 (Nat.eqb_eq _ _) Hk).
  replace (S k - 1)%nat with k by lia. rewrite Hq, Hp. reflexivity.
Qed.

Lemma evaluate_derivative_central (data : Table) (k : nat) (p q : float * float) :
  data !! k = Some p -> data !! S (S k) = Some q ->
  evaluate_derivative data (S k) = Some (slope p q).
Proof.
  intros Hp Hq. unfold evaluate_derivative.
  replace (S k =? 0)%nat with false by reflexivity.
  pose proof (lookup_lt_Some _ _ _ Hq) as Hlt.
  rewrite (proj2 (Nat.eqb_neq (S k) (length data - 1)%nat)) by lia.
  replace (S k + 1)%nat with (S (S k)) by lia.
  replace (S k - 1)%nat with k by lia. rewrite Hq, Hp. reflexivity.
Qed.

(** The clamped abscissa lies above the first sample and not above the last. *)
Lemma deriv_clamp_range (data : Table) (x : float) (d0 dl : float * float) :
  sample_table data = true -> (2 <= length data)%nat ->
  data !! 0%nat = Some d0 -> last data = Some dl ->
  is_nan x = false -> (d0.1 <? d0.1 + eps) = true ->
  exists xc, deriv_clamp x data = Some xc /\
    (d0.1 <? xc) = true /\ (xc <=? dl.1) = true /\
    ((x <=? d0.1) = false -> (dl.1 <=? x) = false -> xc = x) /\
    ((x <=? d0.1) = false -> (dl.1 <=? x) = true -> xc = dl.1) /\
    ((x <=? d0.1) = true -> (dl.1 <=? d0.1 + eps) = false -> xc = d0.1 + eps) /\
    ((x <=? d0.1) = true -> (dl.1 <=? d0.1 + eps) = true -> xc = dl.1).
Proof.
  intros Ht Hlen H0 Hl Hx Hnudge.
  destruct (sample_table_inv data Ht) as (_ & Hs & Hnan).
  pose proof Hl as Hl'. rewrite last_lookup in Hl'.
  assert (Hd0 : is_nan d0.1 = false) by (eapply Hnan; exact H0).
  assert (Hdl : is_nan dl.1 = false) by (eapply Hnan; exact Hl').
  assert (H0l : (d0.1 <? dl.1) = true)
    by (apply (strictly_increasing_lookup data 0 (pred (length data)));
        auto with lia).
  unfold deriv_clamp. rewrite H0, Hl. simpl.
  set (x1 := if x <=? d0.1 then d0.1 + eps else x).
  assert (H1 : (d0.1 <? x1) = true).
  { unfold x1. destruct (x <=? d0.1) eqn:E; [exact Hnudge|].
    apply FloatOrder.leb_false_ltb; assumption. }
  destruct (FloatOrder.ltb_not_nan _ _ H1) as [_ Hx1].
  eexists. split; [reflexivity|].
  destruct (dl.1 <=? x1) eqn:E1.
  - split; [exact H0l|]. split; [apply FloatOrder.leb_refl; exact Hdl|].
    unfold x1 in E1. repeat split; intros Ha Hb; rewrite Ha in E1; congruence.
  - split; [exact H1|].
    split; [apply FloatOrder.ltb_leb, FloatOrder.leb_false_ltb; assumption|].
    unfold x1 in *. repeat split; intros Ha Hb; rewrite Ha in *; congruence.
Qed.

(** Where the first abscissa is so large that adding [1e-10] does not change
    it, the nudge is lost: the search then stops at the first sample and the
    function reads before the table. *)
Lemma deriv_linear_interp_nudge_absorbed :
  deriv_clamp 0 [(0x1p40, 1); (0x1p41, 2)] = Some 0x1p40 /\
  lower_bound [(0x1p40, 1); (0x1p41, 2)] (0x1p40, 0) = 0%nat /\
  deriv_linear_interp 0 [(0x1p40, 1); (0x1p41, 2)] = None.
Proof. repeat split; reflexivity. Qed.

(** C5 as stated: the clamped abscissa is not always strictly inside the
    bounds.  Above the table, [x] is set to the last abscissa itself: with the
    samples (0, 0), (1, 1), (2, 4) and [x = 5] the clamped value is [2]. *)
Lemma deriv_clamp_not_open :
  ~ (forall (data : Table) (x xc : float) (d0 dl : float * float),
       sample_table data = true ->
       data !! 0%nat = Some d0 -> last data = Some dl ->
       deriv_clamp x data = Some xc ->
       (d0.1 <? xc) = true /\ (xc <? dl.1) = true).
Proof.
  intros H.
  destruct (H [(0, 0); (1, 1); (2, 4)] 5 2 (0, 0) (2, 4)
              eq_refl eq_refl eq_refl eq_refl) as [_ Hc].
  vm_compute in Hc. discriminate Hc.
Qed.

(** C5 (amended).  On a table of at least two samples with strictly increasing
    abscissae, for every [x] that is a number, and provided the nudge
    [x_min + 1e-10] is above [x_min] in [double] arithmetic,
    [deriv_linear_interp] clamps [x] into the half-open interval
    [(x_min, x_max]]: an [x] inside is kept, an [x] at or above [x_max] becomes
    [x_max] itself, an [x] at or below [x_min] becomes [x_min + 1e-10] when
    that is below [x_max], and [x_max] when it is not (the second clamp acts
    on the nudged value).  The binary search then brackets the clamped value
    between two adjacent samples; the derivative at each of the two is a
    central difference, one-sided at the first and at the last sample; and
    the result blends the two estimates linearly by the position within the
    bracket. *)
Theorem deriv_linear_interp_spec (data : Table) (x : float) (d0 dl : float * float) :
  sample_table data = true -> (2 <= length data)%nat ->
  data !! 0%nat = Some d0 -> last data = Some dl ->
  is_nan x = false -> (d0.1 <? d0.1 + eps) = true ->
  exists (xc : float) (k : nat) (lo hi : float * float) (dlo dhi : float),
    deriv_clamp x data = Some xc /\
    (d0.1 <? xc) = true /\ (xc <=? dl.1) = true /\
    ((x <=? d0.1) = false -> (dl.1 <=? x) = false -> xc = x) /\
    ((x <=? d0.1) = false -> (dl.1 <=? x) = true -> xc = dl.1) /\
    ((x <=? d0.1) = true -> (dl.1 <=? d0.1 + eps) = false -> xc = d0.1 + eps) /\
    ((x <=? d0.1) = true -> (dl.1 <=? d0.1 + eps) = true -> xc = dl.1) /\
    lower_bound data (xc, 0) = S k /\
    data !! k = Some lo /\ data !! S k = Some hi /\
    (lo.1 <? xc) = true /\ (xc <=? hi.1) = true /\
    evaluate_derivative data k = Some dlo /\
    evaluate_derivative data (S k) = Some dhi /\
    (k = 0%nat -> dlo = slope lo hi) /\
    (forall j before, k = S j -> data !! j = Some before -> dlo = slope before hi) /\
    (S k = (length data - 1)%nat -> dhi = slope lo hi) /\
    (forall after, data !! S (S k) = Some after -> dhi = slope lo after) /\
    deriv_linear_interp x data =
      Some (dlo + (dhi - dlo) * (xc - lo.1) / (hi.1 - lo.1)).
Proof.
  intros Ht Hlen H0 Hl Hx Hnudge.
  destruct (deriv_clamp_range data x d0 dl Ht Hlen H0 Hl Hx Hnudge)
    as (xc & Hxc & Hlo & Hhi & Hin & Habove & Hbelow & Hnarrow).
  destruct (sample_table_inv data Ht) as (_ & Hs & Hnan).
  pose proof Hl as Hl'. rewrite last_lookup in Hl'.
  destruct (lower_bound_spec data xc 0 Hs) as (Hm & Hb & Ha).
  destruct (lower_bound data (xc, 0)) as [|k] eqn:Em.
  { specialize (Ha 0%nat d0 ltac:(lia) H0). congruence. }
  assert (Hk : (S k < length data)%nat).
  { destruct (decide (S k = length data)) as [E|E]; [|lia].
    specialize (Hb (pred (length data)) dl ltac:(lia) Hl').
    apply FloatOrder.ltb_leb_false in Hb. congruence. }
  destruct (lookup_lt_is_Some_2 data k ltac:(lia)) as [lo Hklo].
  destruct (lookup_lt_is_Some_2 data (S k) Hk) as [hi Hkhi].
  pose proof (Hb k lo ltac:(lia) Hklo) as Hlox.
  assert (Hxhi : (xc <=? hi.1) = true).
  { destruct (FloatOrder.ltb_not_nan _ _ Hlox) as [_ Hn].
    apply FloatOrder.ltb_false_leb; [eapply Hnan; exact Hkhi | exact Hn |].
    apply (Ha (S k) hi); [lia | exact Hkhi]. }
  assert (Hdlo : exists dlo, evaluate_derivative data k = Some dlo /\
            (k = 0%nat -> dlo = slope lo hi) /\
            (forall j before, k = S j -> data !! j = Some before ->
               dlo = slope before hi)).
  { destruct k as [|j].
    - exists (slope lo hi).
      split; [apply evaluate_derivative_first; assumption|].
      split; [reflexivity | intros; lia].
    - destruct (lookup_lt_is_Some_2 data j ltac:(lia)) as [before Hbef].
      exists (slope before hi).
      split; [apply evaluate_derivative_central; assumption|].
      split; [intros; lia|].
      intros j' before' Hj Hb'. injection Hj as <-. congruence. }
  assert (Hdhi : exists dhi, evaluate_derivative data (S k) = Some dhi /\
            (S k = (length data - 1)%nat -> dhi = slope lo hi) /\
            (forall after, data !! S (S k) = Some after -> dhi = slope lo after)).
  { destruct (decide (S k = (length data - 1)%nat)) as [E|E].
    - exists (slope lo hi).
      split; [apply evaluate_derivative_last; assumption|].
      split; [reflexivity|].
      intros after Hafter. apply lookup_lt_Some in Hafter. lia.
    - destruct (lookup_lt_is_Some_2 data (S (S k)) ltac:(lia)) as [after Haft].
      exists (slope lo after).
      split; [apply evaluate_derivative_central; assumption|].
      split; [intros; lia|].
      intros after' Haft'. congruence. }
  destruct Hdlo as (dlo & Edlo & Hdlo0 & HdloS).
  destruct Hdhi as (dhi & Edhi & HdhiL & HdhiC).
  exists xc, k, lo, hi, dlo, dhi.
  repeat (split; [assumption|]).
  unfold deriv_linear_interp. rewrite Hxc. simpl. rewrite Em, Hkhi. simpl.
  rewrite Hklo. simpl. rewrite Edhi. simpl.
  replace (k - 0)%nat with k by lia. rewrite Edlo. reflexivity.
Qed.

Definition table_sq : Table := [(0, 0); (1, 1); (2, 4); (3, 9)].

(** Two samples closer than the nudge. *)
Definition table_narrow : Table := [(0, 0); (5e-11, 1)].

Lemma deriv_linear_interp_spec_witness :
  (exists (xc : float) (k : nat) (lo hi : float * float) (dlo dhi : float),
     deriv_clamp 5 table_sq = Some xc /\ xc = 3 /\
     lower_bound table_sq (xc, 0) = S k /\
     table_sq !! k = Some lo /\ table_sq !! S k = Some hi /\
     dhi = slope lo hi /\
     deriv_linear_interp 5 table_sq =
       Some (dlo + (dhi - dlo) * (xc - lo.1) / (hi.1 - lo.1))) /\
  (exists (k : nat) (lo hi : float * float) (dlo dhi : float),
     deriv_clamp (-1) table_narrow = Some 5e-11 /\
     table_narrow !! k = Some lo /\ table_narrow !! S k = Some hi /\
     deriv_linear_interp (-1) table_narrow =
       Some (dlo + (dhi - dlo) * (5e-11 - lo.1) / (hi.1 - lo.1))).
Proof.
  split.
  - destruct (deriv_linear_interp_spec table_sq 5 (0, 0) (3, 9)
                eq_refl ltac:(simpl; lia) eq_refl eq_refl eq_refl eq_refl)
      as (xc & k & lo & hi & dlo & dhi & Hxc & _ & _ & _ & Hab & _ & _ & Hm & Hlo
          & Hhi & _ & _ & _ & _ & _ & _ & Hlast & _ & Hres).
    exists xc, k, lo, hi, dlo, dhi.
    assert (Exc : xc = 3) by (apply Hab; reflexivity).
    split; [exact Hxc|]. split; [exact Exc|]. split; [exact Hm|].
    split; [exact Hlo|]. split; [exact Hhi|]. split; [|exact Hres].
    apply Hlast. subst xc. vm_compute in Hm. injection Hm as <-. reflexivity.
  - destruct (deriv_linear_interp_spec table_narrow (-1) (0, 0) (5e-11, 1)
                eq_refl ltac:(simpl; lia) eq_refl eq_refl eq_refl eq_refl)
      as (xc & k & lo & hi & dlo & dhi & Hxc & _ & _ & _ & _ & _ & Hnarrow & _ & Hlo
          & Hhi & _ & _ & _ & _ & _ & _ & _ & _ & Hres).
    assert (Exc : xc = 5e-11) by (apply Hnarrow; reflexivity).
    subst xc. exists k, lo, hi, dlo, dhi.
    split; [exact Hxc|]. split; [exact Hlo|]. split; [exact Hhi|]. exact Hres.
Defined.

(** *** Conductivities *)

Lemma clamp_temperature_cases (t : float) :
  ((t <? 200) = true /\ clamp_temperature t = 200) \/
  ((t <? 200) = false /\ (1400 <? t) = true /\ clamp_temperature t = 1400) \/
  ((t <? 200) = false /\ (1400 <? t) = false /\ clamp_temperature t = t).
Proof.
  unfold clamp_temperature. destruct (t <? 200) eqn:E1.
  - left. split; reflexivity.
  - right. destruct (1400 <? t) eqn:E2; [left|right]; repeat split; reflexivity.
Qed.

Lemma clamp_temperature_idem (t : float) :
  clamp_temperature (clamp_temperature t) = clamp_temperature t.
Proof.
  destruct (clamp_temperature_cases t) as [[_ ->]|[(_ & _ & ->)|(E1 & E2 & ->)]];
    try reflexivity.
  unfold clamp_temperature. rewrite E1, E2. reflexivity.
Qed.

Lemma clamp_temperature_range (t : float) :
  is_nan t = false ->
  (200 <=? clamp_temperature t) = true /\ (clamp_temperature t <=? 1400) = true.
Proof.
  intros Hn.
  destruct (clamp_temperature_cases t) as [[_ ->]|[(_ & _ & ->)|(E1 & E2 & ->)]];
    try (split; reflexivity).
  split; apply FloatOrder.ltb_false_leb; auto.
Qed.

(** C6.  [sigma T] is [1 / resistivity T'] and [kappa T] is
    [L * T' * sigma T'] with the constant Lorentz number [L = 2.443e-8], where
    [T'] is [T] after the two clamping statements, which run before the table
    is read; [T'] is 200 below 200, 1400 above 1400 and [T] in between, so it
    lies in [[200, 1400]] for every [T] that is a number. *)
Theorem sigma_kappa_clamped (resistivity_data : Table) (T : float) :
  let T' := clamp_temperature T in
  sigma resistivity_data T =
    (fun rho => 1.0 / rho) <$> evaluate_resistivity resistivity_data T' /\
  kappa resistivity_data T =
    (fun s => lorentz * T' * s) <$> sigma resistivity_data T' /\
  kappa resistivity_data T =
    (fun rho => lorentz * T' * (1.0 / rho)) <$>
      evaluate_resistivity resistivity_data T' /\
  lorentz = 2.443e-8 /\
  ((T <? 200) = true -> T' = 200) /\
  ((1400 <? T) = true -> T' = 1400) /\
  ((200 <=? T) = true -> (T <=? 1400) = true -> T' = T) /\
  (is_nan T = false -> (200 <=? T') = true /\ (T' <=? 1400) = true).
Proof.
  intros T'.
  assert (Hs : forall t, sigma resistivity_data t =
            (fun rho => 1.0 / rho) <$>
              evaluate_resistivity resistivity_data (clamp_temperature t)).
  { intros t. unfold sigma.
    destruct (evaluate_resistivity resistivity_data (clamp_temperature t));
      reflexivity. }
  assert (Hk : kappa resistivity_data T =
            (fun s => lorentz * T' * s) <$> sigma resistivity_data T').
  { unfold kappa. fold T'. destruct (sigma resistivity_data T'); reflexivity. }
  split; [apply Hs|]. split; [exact Hk|].
  split.
  { rewrite Hk, Hs. unfold T'. rewrite clamp_temperature_idem.
    destruct (evaluate_resistivity resistivity_data (clamp_temperature T));
      reflexivity. }
  split; [reflexivity|].
  unfold T'.
  destruct (clamp_temperature_cases T) as [[E1 E]|[(E1 & E2 & E)|(E1 & E2 & E)]].
  - split; [intros _; exact E|].
    split.
    { intros H. pose proof (FloatOrder.ltb_trans _ _ _ H E1) as Hc.
      vm_compute in Hc. discriminate Hc. }
    split; [intros H; apply FloatOrder.ltb_leb_false in E1; congruence|].
    intros _. rewrite E. split; reflexivity.
  - split; [congruence|]. split; [intros _; exact E|].
    split; [intros _ H; apply FloatOrder.ltb_leb_false in E2; congruence|].
    intros _. rewrite E. split; reflexivity.
  - split; [congruence|]. split; [congruence|]. split; [intros _ _; exact E|].
    apply clamp_temperature_range.
Qed.

Definition copper_like : Table := [(200, 1.5e-8); (1400, 9e-8)].

Lemma sigma_kappa_clamped_witness :
  sigma copper_like 100 =
    (fun rho => 1.0 / rho) <$> evaluate_resistivity copper_like 200 /\
  kappa copper_like 2000 =
    (fun rho => lorentz * 1400 * (1.0 / rho)) <$>
      evaluate_resistivity copper_like 1400.
Proof.
  pose proof (sigma_kappa_clamped copper_like 100) as (H1 & _).
  pose proof (sigma_kappa_clamped copper_like 2000) as (_ & _ & H2 & _).
  split; [exact H1 | exact H2].
Defined.

(** *** Further properties of the tables *)

Lemma lower_bound_loop_none_below (data : Table) (value : float * float) :
  (forall d, pair_comp d value = false) ->
  forall fuel first count, lower_bound_loop fuel data value first count = first.
Proof.
  intros Hcmp. induction fuel as [|fuel IH]; intros first count; [reflexivity|].
  cbn [lower_bound_loop]. destruct (count =? 0)%nat; [reflexivity|].
  destruct (data !! (first + count / 2)%nat) as [d|]; [|reflexivity].
  rewrite Hcmp. apply IH.
Qed.

Lemma lower_bound_nan (data : Table) (x y : float) :
  is_nan x = true -> lower_bound data (x, y) = 0%nat.
Proof.
  intros Hx. unfold lower_bound. apply lower_bound_loop_none_below.
  intros d. unfold pair_comp. simpl.
  destruct (FloatOrder.nan_compare x d.1 Hx) as (_ & _ & _ & H). exact H.
Qed.

(** X1.  On a table with strictly increasing abscissae, [linear_interp]
    never leaves the table for an [x] that is a number: it returns the first
    ordinate when [x <= x_min], the last ordinate when [x >= x_max], and
    otherwise the interpolation formula on a bracket of two adjacent samples
    with [x] above the lower and at most the upper abscissa. *)
Theorem linear_interp_defined (data : Table) (x : float) (d0 dl : float * float) :
  sample_table data = true ->
  data !! 0%nat = Some d0 -> last data = Some dl ->
  is_nan x = false ->
  exists v, linear_interp x data = Some v /\
    (((x <=? d0.1) = true /\ v = d0.2) \/
     ((dl.1 <=? x) = true /\ v = dl.2) \/
     (exists k lo hi,
        data !! k = Some lo /\ data !! S k = Some hi /\
        (lo.1 <? x) = true /\ (x <=? hi.1) = true /\
        v = lo.2 + (hi.2 - lo.2) * (x - lo.1) / (hi.1 - lo.1))).
Proof.
  intros Ht H0 Hl Hx.
  destruct (sample_table_inv data Ht) as (Hlen & Hs & Hnan).
  pose proof Hl as Hl'. rewrite last_lookup in Hl'.
  assert (Hd0 : is_nan d0.1 = false) by (eapply Hnan; exact H0).
  assert (Hdl : is_nan dl.1 = false) by (eapply Hnan; exact Hl').
  destruct (x <=? d0.1) eqn:E0.
  { exists d0.2. split; [|left; split; reflexivity].
    unfold linear_interp. rewrite H0, Hl. simpl. rewrite E0. reflexivity. }
  destruct (dl.1 <=? x) eqn:El.
  { exists dl.2. split; [|right; left; split; reflexivity].
    unfold linear_interp. rewrite H0, Hl. simpl. rewrite E0, El. reflexivity. }
  assert (Hlo : (d0.1 <? x) = true) by (apply FloatOrder.leb_false_ltb; assumption).
  assert (Hhi : (x <? dl.1) = true) by (apply FloatOrder.leb_false_ltb; assumption).
  destruct (lower_bound_spec data x 0 Hs) as (Hm & Hb & Ha).
  destruct (lower_bound data (x, 0)) as [|k] eqn:Em.
  { specialize (Ha 0%nat d0 ltac:(lia) H0). congruence. }
  assert (Hk : (S k < length data)%nat).
  { destruct (decide (S k = length data)) as [E|E]; [|lia].
    specialize (Hb (pred (length data)) dl ltac:(lia) Hl').
    apply FloatOrder.ltb_asym in Hb. congruence. }
  destruct (lookup_lt_is_Some_2 data k ltac:(lia)) as [lo Hklo].
  destruct (lookup_lt_is_Some_2 data (S k) Hk) as [hi Hkhi].
  pose proof (Hb k lo ltac:(lia) Hklo) as Hlox.
  assert (Hxhi : (x <=? hi.1) = true).
  { apply FloatOrder.ltb_false_leb; [eapply Hnan; exact Hkhi | exact Hx |].
    apply (Ha (S k) hi); [lia | exact Hkhi]. }
  exists (lo.2 + (hi.2 - lo.2) * (x - lo.1) / (hi.1 - lo.1)).
  split; [apply (linear_interp_bracket data x k lo hi dl); assumption|].
  right; right. exists k, lo, hi. repeat split; assumption.
Qed.

Lemma linear_interp_defined_witness :
  exists v, linear_interp 1.5 table3 = Some v.
Proof.
  destruct (linear_interp_defined table3 1.5 (0, 1e16) (2, 0)
              eq_refl eq_refl eq_refl eq_refl) as (v & Hv & _).
  exists v. exact Hv.
Defined.

(** X2.  A [NaN] argument passes every clamp, since it compares false with
    every bound: the two interpolation routines then search with a key below
    which no sample lies, stop at the first sample and read before the table;
    so do the four conductivity functions, whatever the table. *)
Theorem nan_reads_before_table (data : Table) (x : float) :
  is_nan x = true ->
  clamp_temperature x = x /\
  lower_bound data (x, 0) = 0%nat /\
  linear_interp x data = None /\
  deriv_linear_interp x data = None /\
  sigma data x = None /\ kappa data x = None /\
  dsigma data x = None /\ dkappa data x = None.
Proof.
  intros Hx.
  assert (Hc : clamp_temperature x = x).
  { unfold clamp_temperature.
    destruct (FloatOrder.nan_compare x 200 Hx) as (_ & _ & -> & _).
    destruct (FloatOrder.nan_compare x 1400 Hx) as (_ & _ & _ & ->).
    reflexivity. }
  assert (Hli : linear_interp x data = None).
  { unfold linear_interp.
    destruct (data !! 0%nat) as [d0|] eqn:H0; [|reflexivity].
    destruct (last data) as [dl|]; [|reflexivity]. simpl.
    destruct (FloatOrder.nan_compare x d0.1 Hx) as (-> & _).
    destruct (FloatOrder.nan_compare x dl.1 Hx) as (_ & -> & _).
    rewrite (lower_bound_nan data x 0 Hx), H0. reflexivity. }
  assert (Hdi : deriv_linear_interp x data = None).
  { unfold deriv_linear_interp, deriv_clamp.
    destruct (data !! 0%nat) as [d0|] eqn:H0; [|reflexivity].
    destruct (last data) as [dl|]; [|reflexivity]. simpl.
    destruct (FloatOrder.nan_compare x d0.1 Hx) as (-> & _).
    destruct (FloatOrder.nan_compare x dl.1 Hx) as (_ & -> & _).
    rewrite (lower_bound_nan data x 0 Hx), H0. reflexivity. }
  assert (Hs : sigma data x = None).
  { unfold sigma, evaluate_resistivity. rewrite Hc, Hli. reflexivity. }
  assert (Hds : dsigma data x = None).
  { unfold dsigma, evaluate_resistivity. rewrite Hc, Hli. reflexivity. }
  split; [exact Hc|]. split; [apply lower_bound_nan; exact Hx|].
  split; [exact Hli|]. split; [exact Hdi|]. split; [exact Hs|].
  split; [unfold kappa; rewrite Hc, Hs; reflexivity|].
  split; [exact Hds|]. unfold dkappa. rewrite Hc, Hs. reflexivity.
Qed.

Lemma nan_reads_before_table_witness :
  linear_interp nan table3 = None /\ sigma table3 nan = None.
Proof.
  destruct (nan_reads_before_table table3 nan eq_refl)
    as (_ & _ & H1 & _ & H2 & _).
  split; assumption.
Defined.

(** X3.  A table of a single sample is enough for [linear_interp], which is
    then the constant ordinate for every [x] that is a number, but not for
    [deriv_linear_interp] (nor for [evaluate_derivative]), which read outside
    the table for every [x]. *)
Theorem single_sample_table (p : float * float) (x : float) :
  is_nan p.1 = false -> is_nan x = false ->
  linear_interp x [p] = Some p.2 /\
  (forall z, deriv_linear_interp z [p] = None) /\
  (forall it, evaluate_derivative [p] it = None).
Proof.
  intros Hp Hx. split; [|split].
  - unfold linear_interp. simpl.
    destruct (x <=? p.1) eqn:E; [reflexivity|].
    destruct (FloatOrder.leb_total x p.1 Hx Hp) as [H|H]; [congruence|].
    rewrite H. reflexivity.
  - intros z. unfold deriv_linear_interp, deriv_clamp, lower_bound. simpl.
    set (xc := if p.1 <=? (if z <=? p.1 then p.1 + eps else z) then p.1
               else (if z <=? p.1 then p.1 + eps else z)).
    destruct (pair_comp p (xc, 0)); reflexivity.
  - intros [|[|it]]; reflexivity.
Qed.

Lemma single_sample_table_witness :
  linear_interp 700 [(300, 1.7e-8)] = Some 1.7e-8 /\
  deriv_linear_interp 700 [(300, 1.7e-8)] = None.
Proof.
  destruct (single_sample_table (300, 1.7e-8) 700 eq_refl eq_refl)
    as (H1 & H2 & _).
  split; [exact H1 | apply H2].
Defined.

(** X4.  Outside the window [[200, 1400]] the four conductivity functions are
    frozen at the nearer end: below 200 each returns its value at 200, above
    1400 its value at 1400 (so [kappa] stops growing with the temperature
    there). *)
Theorem conductivities_frozen_outside_window (data : Table) (T : float) :
  ((T <? 200) = true ->
   sigma data T = sigma data 200 /\ kappa data T = kappa data 200 /\
   dsigma data T = dsigma data 200 /\ dkappa data T = dkappa data 200) /\
  ((1400 <? T) = true ->
   sigma data T = sigma data 1400 /\ kappa data T = kappa data 1400 /\
   dsigma data T = dsigma data 1400 /\ dkappa data T = dkappa data 1400).
Proof.
  assert (Hfreeze : forall a, clamp_temperature T = clamp_temperature a ->
            sigma data T = sigma data a /\ kappa data T = kappa data a /\
            dsigma data T = dsigma data a /\ dkappa data T = dkappa data a).
  { intros a Ha. unfold kappa, dkappa, sigma, dsigma. rewrite Ha.
    repeat split; reflexivity. }
  split; intros H; apply Hfreeze.
  - unfold clamp_temperature at 1. rewrite H. reflexivity.
  - pose proof (FloatOrder.ltb_trans 200 1400 T eq_refl H) as H2.
    apply FloatOrder.ltb_asym in H2.
    unfold clamp_temperature at 1. rewrite H2, H. reflexivity.
Qed.

Lemma conductivities_frozen_outside_window_witness :
  kappa copper_like 100 = kappa copper_like 200 /\
  kappa copper_like 5000 = kappa copper_like 1400.
Proof.
  destruct (conductivities_frozen_outside_window copper_like 100) as [H1 _].
  destruct (conductivities_frozen_outside_window copper_like 5000) as [_ H2].
  split; [apply (H1 eq_refl) | apply (H2 eq_refl)].
Defined.

(** *** The grids of emission currents and Nottingham energies *)

(** [int(d)] for a [double] [d]: the integer part, towards zero; undefined
    for [NaN], the infinities and values outside [int]. *)
Definition double_to_int (d : float) : option Z :=
  match Prim2SF d with
  | S754_zero _ => Some 0%Z
  | S754_finite s m e =>
      let a := if (0 <=? e)%Z then (Z.pos m * 2 ^ e)%Z
               else (Z.pos m / 2 ^ (- e))%Z in
      let z := if s then (- a)%Z else a in
      if ((- 2 ^ 31 <=? z) && (z <? 2 ^ 31))%Z then Some z else None
  | _ => None
  end.

(** The conversion of an [int] to [double], which is exact. *)
Definition int_to_double (z : Z) : float :=
  if (z <? 0)%Z then - of_uint63 (Uint63.of_Z (- z))
  else of_uint63 (Uint63.of_Z z).

(** Arithmetic in [unsigned]. *)
Definition unsigned32 (z : Z) : Z := (z mod 2 ^ 32)%Z.

(** The two clamping statements of one coordinate in [bilinear_interp]. *)
Definition grid_clamp (lo hi x : float) : float :=
  let x := if x <=? lo then lo else x in
  if hi <=? x then hi - eps else x.

(** [struct InterpolationGrid]: the flattened values, the bounds and the
    numbers of rows. *)
Record InterpolationGrid := {
  v : list float;
  xmin : float;
  xmax : float;
  ymin : float;
  ymax : float;
  xnum : N;
  ynum : N
}.

Section Grids.

(** [std::exp] and [std::log]. *)
Variable exp log : float -> float.

(** The value of [grid.xnum - 1] as a [double]; the declaration of the
    counts (physical_quantities.h) decides it when the count is zero. *)
Variable steps_as_double : N -> float.

Variable emission_grid nottingham_grid : InterpolationGrid.

Definition bilinear_interp (x y : float) (grid_data : InterpolationGrid) :
    option float :=
  let x := grid_clamp (xmin grid_data) (xmax grid_data) x in
  let y := grid_clamp (ymin grid_data) (ymax grid_data) y in
  let dx := (xmax grid_data - xmin grid_data) / steps_as_double (xnum grid_data) in
  let dy := (ymax grid_data - ymin grid_data) / steps_as_double (ynum grid_data) in
  xi ← double_to_int ((x - xmin grid_data) / dx);
  yi ← double_to_int ((y - ymin grid_data) / dy);
  let xc := (x - xmin grid_data) / dx - int_to_double xi in
  let yc := (y - ymin grid_data) / dy - int_to_double yi in
  let yn := unsigned32 (Z.of_N (ynum grid_data)) in
  xi1 ← (if (xi + 1 <? 2 ^ 31)%Z then Some (xi + 1)%Z else None);
  let at_index (i : Z) := v grid_data !! Z.to_nat i in
  v00 ← at_index (unsigned32 (unsigned32 (unsigned32 xi * yn) + unsigned32 yi));
  v10 ← at_index (unsigned32 (unsigned32 (unsigned32 xi1 * yn) + unsigned32 yi));
  v01 ← at_index (unsigned32
                    (unsigned32 (unsigned32 (unsigned32 xi * yn) + unsigned32 yi) + 1));
  v11 ← at_index (unsigned32
                    (unsigned32 (unsigned32 (unsigned32 xi1 * yn) + unsigned32 yi) + 1));
  Some (v00 * (1 - xc) * (1 - yc)
        + v10 * xc * (1 - yc)
        + v01 * (1 - xc) * yc
        + v11 * xc * yc).

Definition emission_current (field temperature : float) : option float :=
  (fun b => exp b * 1.0e-18) <$> bilinear_interp (log field) temperature emission_grid.

Definition nottingham_de (field temperature : float) : option float :=
  bilinear_interp (log field) temperature nottingham_grid.

Lemma grid_clamp_below (lo hi x : float) :
  (x <=? lo) = true -> grid_clamp lo hi x = grid_clamp lo hi lo.
Proof.
  intros H. destruct (FloatOrder.leb_not_nan _ _ H) as [_ Hlo].
  unfold grid_clamp. rewrite H, (FloatOrder.leb_refl lo Hlo). reflexivity.
Qed.

Lemma grid_clamp_above (lo hi x : float) :
  (lo <? hi) = true -> (hi <=? x) = true ->
  grid_clamp lo hi x = hi - eps /\ grid_clamp lo hi hi = hi - eps.
Proof.
  intros Hlt H. destruct (FloatOrder.leb_not_nan _ _ H) as [Hhi _].
  unfold grid_clamp.
  pose proof (FloatOrder.ltb_leb_trans _ _ _ Hlt H) as Hx.
  rewrite (FloatOrder.ltb_leb_false _ _ Hx), H.
  rewrite (FloatOrder.ltb_leb_false _ _ Hlt), (FloatOrder.leb_refl hi Hhi).
  split; reflexivity.
Qed.

Lemma grid_clamp_nan (lo hi x : float) : is_nan x = true -> grid_clamp lo hi x = x.
Proof.
  intros Hx. unfold grid_clamp.
  destruct (FloatOrder.nan_compare x lo Hx) as (-> & _).
  destruct (FloatOrder.nan_compare x hi Hx) as (_ & -> & _). reflexivity.
Qed.

Lemma double_to_int_nan_quotient (x lo d : float) :
  is_nan x = true -> double_to_int ((x - lo) / d) = None.
Proof.
  intros Hx. unfold double_to_int.
  rewrite div_spec, sub_spec, (FloatOrder.is_nan_Prim2SF x Hx). reflexivity.
Qed.

(** X13.  [bilinear_interp] extrapolates by a constant in each coordinate: at
    or below the lower bound it returns what it returns at the lower bound,
    and, on a grid whose lower bound is below its upper bound, at or above
    the upper bound what it returns at the upper bound (where it evaluates
    at [max - 1e-10]).  So the emission current and the Nottingham energy do
    not change with the temperature outside the tabulated range. *)
Theorem bilinear_interp_extrapolates (x y : float) (grid_data : InterpolationGrid) :
  ((x <=? xmin grid_data) = true ->
   bilinear_interp x y grid_data = bilinear_interp (xmin grid_data) y grid_data) /\
  ((xmin grid_data <? xmax grid_data) = true -> (xmax grid_data <=? x) = true ->
   bilinear_interp x y grid_data = bilinear_interp (xmax grid_data) y grid_data) /\
  ((y <=? ymin grid_data) = true ->
   bilinear_interp x y grid_data = bilinear_interp x (ymin grid_data) grid_data) /\
  ((ymin grid_data <? ymax grid_data) = true -> (ymax grid_data <=? y) = true ->
   bilinear_interp x y grid_data = bilinear_interp x (ymax grid_data) grid_data) /\
  (forall field,
     ((y <=? ymin emission_grid) = true ->
      emission_current field y = emission_current field (ymin emission_grid)) /\
     ((ymin emission_grid <? ymax emission_grid) = true ->
      (ymax emission_grid <=? y) = true ->
      emission_current field y = emission_current field (ymax emission_grid)) /\
     ((y <=? ymin nottingham_grid) = true ->
      nottingham_de field y = nottingham_de field (ymin nottingham_grid)) /\
     ((ymin nottingham_grid <? ymax nottingham_grid) = true ->
      (ymax nottingham_grid <=? y) = true ->
      nottingham_de field y = nottingham_de field (ymax nottingham_grid))).
Proof.
  assert (Hx : forall g a b, grid_clamp (xmin g) (xmax g) a = grid_clamp (xmin g) (xmax g) b ->
            bilinear_interp a y g = bilinear_interp b y g).
  { intros g a b H. unfold bilinear_interp. rewrite H. reflexivity. }
  assert (Hy : forall g u a b, grid_clamp (ymin g) (ymax g) a = grid_clamp (ymin g) (ymax g) b ->
            bilinear_interp u a g = bilinear_interp u b g).
  { intros g u a b H. unfold bilinear_interp. rewrite H. reflexivity. }
  assert (Hlow : forall g u, (y <=? ymin g) = true ->
            bilinear_interp u y g = bilinear_interp u (ymin g) g).
  { intros g u H. apply Hy, grid_clamp_below, H. }
  assert (Hhigh : forall g u, (ymin g <? ymax g) = true -> (ymax g <=? y) = true ->
            bilinear_interp u y g = bilinear_interp u (ymax g) g).
  { intros g u Hlt H. apply Hy.
    destruct (grid_clamp_above _ _ _ Hlt H) as [-> ->]. reflexivity. }
  split; [intros H; apply Hx, grid_clamp_below, H|].
  split.
  { intros Hlt H. apply Hx.
    destruct (grid_clamp_above _ _ _ Hlt H) as [-> ->]. reflexivity. }
  split; [apply Hlow|]. split; [apply Hhigh|].
  intros field. unfold emission_current, nottingham_de.
  split; [intros H; rewrite (Hlow _ _ H); reflexivity|].
  split; [intros Hlt H; rewrite (Hhigh _ _ Hlt H); reflexivity|].
  split; [apply Hlow | apply Hhigh].
Qed.

(** X14.  A [NaN] coordinate passes the clamps of [bilinear_interp]; the
    cell index is then the conversion of a [NaN] to [int], which is
    undefined, and so are the emission current and the Nottingham energy at a
    [NaN] temperature. *)
Theorem bilinear_interp_nan (x y : float) (grid_data : InterpolationGrid) :
  is_nan x = true \/ is_nan y = true ->
  bilinear_interp x y grid_data = None /\
  (is_nan y = true ->
   forall field, emission_current field y = None /\ nottingham_de field y = None).
Proof.
  assert (Hbi : forall a b g, is_nan a = true \/ is_nan b = true ->
            bilinear_interp a b g = None).
  { intros a b g [Ha|Hb]; unfold bilinear_interp; cbv zeta.
    - rewrite (grid_clamp_nan _ _ a Ha), (double_to_int_nan_quotient a _ _ Ha).
      reflexivity.
    - rewrite (grid_clamp_nan _ _ b Hb), (double_to_int_nan_quotient b _ _ Hb).
      destruct (double_to_int _); reflexivity. }
  intros H. split; [apply Hbi, H|].
  intros Hy field. unfold emission_current, nottingham_de.
  rewrite !Hbi by (right; exact Hy). split; reflexivity.
Qed.

End Grids.

(** A three by three grid over [[0, 2] x [300, 500]] holding [10 i + j] at
    row [i] and column [j]. *)
Definition small_grid : InterpolationGrid :=
  {| v := [0; 1; 2; 10; 11; 12; 20; 21; 22];
     xmin := 0; xmax := 2; ymin := 300; ymax := 500; xnum := 3; ynum := 3 |}.

Definition steps_of_unsigned (n : N) : float :=
  int_to_double (unsigned32 (Z.of_N n - 1)).

Lemma bilinear_interp_extrapolates_witness :
  bilinear_interp steps_of_unsigned 7 900 small_grid
  = bilinear_interp steps_of_unsigned 2 500 small_grid
  /\ bilinear_interp steps_of_unsigned (-7) 100 small_grid = Some 0.
Proof.
  pose (id_fn := fun a : float => a).
  destruct (bilinear_interp_extrapolates id_fn id_fn steps_of_unsigned
              small_grid small_grid 7 900 small_grid) as (_ & Hx & _).
  destruct (bilinear_interp_extrapolates id_fn id_fn steps_of_unsigned
              small_grid small_grid 2 900 small_grid) as (_ & _ & _ & Hy & _).
  destruct (bilinear_interp_extrapolates id_fn id_fn steps_of_unsigned
              small_grid small_grid (-7) 100 small_grid) as (Hl & _ & _).
  destruct (bilinear_interp_extrapolates id_fn id_fn steps_of_unsigned
              small_grid small_grid 0 100 small_grid) as (_ & _ & Hb & _).
  split.
  - etransitivity; [apply Hx; reflexivity | apply Hy; reflexivity].
  - etransitivity; [apply Hl; reflexivity |].
    etransitivity; [apply Hb; reflexivity | reflexivity].
Defined.

Lemma bilinear_interp_nan_witness :
  bilinear_interp steps_of_unsigned nan 300 small_grid = None.
Proof.
  refine (proj1 (bilinear_interp_nan (fun a => a) (fun a => a) steps_of_unsigned
                   small_grid small_grid nan 300 small_grid _)).
  left; reflexivity.
Defined.

End PhysicalQuantities.

(** ** currents_and_heating.cc *)
Module CurrentsAndHeating.

(** [Vector<double>]: the entries in order.  [FullMatrix<double>] and
    [SparseMatrix<double>]: the entry at each (row, column). *)
Abbreviation Vector := (list float).
Abbreviation Matrix := (nat -> nat -> float).

(** [std::pair<unsigned, unsigned>]: (cell index, face number). *)
Abbreviation FaceInfo := (nat * nat)%type.

(** [static constexpr] members of the class. *)
Definition ambient_temperature : float := 300.0.
Definition cu_rho_cp : float := 3.4496e-21.

(** What the pointer [pq] gives access to: the methods of the
    [PhysicalQuantities] object the assemblers and getters call, on loaded
    tables. *)
Record PhysicalQuantitiesObject := {
  pq_sigma : float -> float;
  pq_kappa : float -> float;
  pq_emission_current : float -> float -> float;
  pq_nottingham_de : float -> float -> float
}.

(** The data members of [CurrentsAndHeating<dim>] that the embedded methods
    read or write, and the text written to [std::cerr]. *)
Record State := {
  time_step : float;
  uniform_efield_bc : float;
  system_matrix_current : Matrix;
  system_rhs_current : Vector;
  solution_current : Vector;
  old_solution_current : Vector;
  system_matrix_heat : Matrix;
  system_rhs_heat : Vector;
  solution_heat : Vector;
  old_solution_heat : Vector;
  const_temperature_solution : Vector;
  pq : PhysicalQuantitiesObject;
  interface_map_field : gmap (nat * nat) float;
  interface_map_emission_current : gmap (nat * nat) float;
  interface_map_nottingham : gmap (nat * nat) float;
  cerr : list string
}.

(** Assignments to single members. *)
Definition with_time_step (v : float) (s : State) : State :=
  {| time_step := v; uniform_efield_bc := uniform_efield_bc s;
     system_matrix_current := system_matrix_current s;
     system_rhs_current := system_rhs_current s;
     solution_current := solution_current s;
     old_solution_current := old_solution_current s;
     system_matrix_heat := system_matrix_heat s;
     system_rhs_heat := system_rhs_heat s; solution_heat := solution_heat s;
     old_solution_heat := old_solution_heat s;
     const_temperature_solution := const_temperature_solution s; pq := pq s;
     interface_map_field := interface_map_field s;
     interface_map_emission_current := interface_map_emission_current s;
     interface_map_nottingham := interface_map_nottingham s; cerr := cerr s |}.

Definition with_uniform_efield_bc (v : float) (s : State) : State :=
  {| time_step := time_step s; uniform_efield_bc := v;
     system_matrix_current := system_matrix_current s;
     system_rhs_current := system_rhs_current s;
     solution_current := solution_current s;
     old_solution_current := old_solution_current s;
     system_matrix_heat := system_matrix_heat s;
     system_rhs_heat := system_rhs_heat s; solution_heat := solution_heat s;
     old_solution_heat := old_solution_heat s;
     const_temperature_solution := const_temperature_solution s; pq := pq s;
     interface_map_field := interface_map_field s;
     interface_map_emission_current := interface_map_emission_current s;
     interface_map_nottingham := interface_map_nottingham s; cerr := cerr s |}.

(** The three members of the conduction system that assembly and the solver
    write: matrix, right-hand side, solution. *)
Definition with_current_system (m : Matrix) (rhs sol : Vector) (s : State) : State :=
  {| time_step := time_step s; uniform_efield_bc := uniform_efield_bc s;
     system_matrix_current := m; system_rhs_current := rhs;
     solution_current := sol;
     old_solution_current := old_solution_current s;
     system_matrix_heat := system_matrix_heat s;
     system_rhs_heat := system_rhs_heat s; solution_heat := solution_heat s;
     old_solution_heat := old_solution_heat s;
     const_temperature_solution := const_temperature_solution s; pq := pq s;
     interface_map_field := interface_map_field s;
     interface_map_emission_current := interface_map_emission_current s;
     interface_map_nottingham := interface_map_nottingham s; cerr := cerr s |}.

Definition with_heat_system (m : Matrix) (rhs sol : Vector) (s : State) : State :=
  {| time_step := time_step s; uniform_efield_bc := uniform_efield_bc s;
     system_matrix_current := system_matrix_current s;
     system_rhs_current := system_rhs_current s;
     solution_current := solution_current s;
     old_solution_current := old_solution_current s;
     system_matrix_heat := m; system_rhs_heat := rhs; solution_heat := sol;
     old_solution_heat := old_solution_heat s;
     const_temperature_solution := const_temperature_solution s; pq := pq s;
     interface_map_field := interface_map_field s;
     interface_map_emission_current := interface_map_emission_current s;
     interface_map_nottingham := interface_map_nottingham s; cerr := cerr s |}.

Definition with_old_solution_current (v : Vector) (s : State) : State :=
  {| time_step := time_step s; uniform_efield_bc := uniform_efield_bc s;
     system_matrix_current := system_matrix_current s;
     system_rhs_current := system_rhs_current s;
     solution_current := solution_current s;
     old_solution_current := v;
     system_matrix_heat := system_matrix_heat s;
     system_rhs_heat := system_rhs_heat s; solution_heat := solution_heat s;
     old_solution_heat := old_solution_heat s;
     const_temperature_solution := const_temperature_solution s; pq := pq s;
     interface_map_field := interface_map_field s;
     interface_map_emission_current := interface_map_emission_current s;
     interface_map_nottingham := interface_map_nottingham s; cerr := cerr s |}.

Definition with_old_solution_heat (v : Vector) (s : State) : State :=
  {| time_step := time_step s; uniform_efield_bc := uniform_efield_bc s;
     system_matrix_current := system_matrix_current s;
     system_rhs_current := system_rhs_current s;
     solution_current := solution_current s;
     old_solution_current := old_solution_current s;
     system_matrix_heat := system_matrix_heat s;
     system_rhs_heat := system_rhs_heat s; solution_heat := solution_heat s;
     old_solution_heat := v;
     const_temperature_solution := const_temperature_solution s; pq := pq s;
     interface_map_field := interface_map_field s;
     interface_map_emission_current := interface_map_emission_current s;
     interface_map_nottingham := interface_map_nottingham s; cerr := cerr s |}.

Definition with_const_temperature_solution (v : Vector) (s : State) : State :=
  {| time_step := time_step s; uniform_efield_bc := uniform_efield_bc s;
     system_matrix_current := system_matrix_current s;
     system_rhs_current := system_rhs_current s;
     solution_current := solution_current s;
     old_solution_current := old_solution_current s;
     system_matrix_heat := system_matrix_heat s;
     system_rhs_heat := system_rhs_heat s; solution_heat := solution_heat s;
     old_solution_heat := old_solution_heat s;
     const_temperature_solution := v; pq := pq s;
     interface_map_field := interface_map_field s;
     interface_map_emission_current := interface_map_emission_current s;
     interface_map_nottingham := interface_map_nottingham s; cerr := cerr s |}.

Definition with_pq (v : PhysicalQuantitiesObject) (s : State) : State :=
  {| time_step := time_step s; uniform_efield_bc := uniform_efield_bc s;
     system_matrix_current := system_matrix_current s;
     system_rhs_current := system_rhs_current s;
     solution_current := solution_current s;
     old_solution_current := old_solution_current s;
     system_matrix_heat := system_matrix_heat s;
     system_rhs_heat := system_rhs_heat s; solution_heat := solution_heat s;
     old_solution_heat := old_solution_heat s;
     const_temperature_solution := const_temperature_solution s; pq := v;
     interface_map_field := interface_map_field s;
     interface_map_emission_current := interface_map_emission_current s;
     interface_map_nottingham := interface_map_nottingham s; cerr := cerr s |}.

Definition with_interface_map_field (v : gmap (nat * nat) float) (s : State) : State :=
  {| time_step := time_step s; uniform_efield_bc := uniform_efield_bc s;
     system_matrix_current := system_matrix_current s;
     system_rhs_current := system_rhs_current s;
     solution_current := solution_current s;
     old_solution_current := old_solution_current s;
     system_matrix_heat := system_matrix_heat s;
     system_rhs_heat := system_rhs_heat s; solution_heat := solution_heat s;
     old_solution_heat := old_solution_heat s;
     const_temperature_solution := const_temperature_solution s; pq := pq s;
     interface_map_field := v;
     interface_map_emission_current := interface_map_emission_current s;
     interface_map_nottingham := interface_map_nottingham s; cerr := cerr s |}.

Definition with_emission_maps (e n : gmap (nat * nat) float) (s : State) : State :=
  {| time_step := time_step s; uniform_efield_bc := uniform_efield_bc s;
     system_matrix_current := system_matrix_current s;
     system_rhs_current := system_rhs_current s;
     solution_current := solution_current s;
     old_solution_current := old_solution_current s;
     system_matrix_heat := system_matrix_heat s;
     system_rhs_heat := system_rhs_heat s; solution_heat := solution_heat s;
     old_solution_heat := old_solution_heat s;
     const_temperature_solution := const_temperature_solution s; pq := pq s;
     interface_map_field := interface_map_field s;
     interface_map_emission_current := e;
     interface_map_nottingham := n; cerr := cerr s |}.

Definition with_cerr (v : list string) (s : State) : State :=
  {| time_step := time_step s; uniform_efield_bc := uniform_efield_bc s;
     system_matrix_current := system_matrix_current s;
     system_rhs_current := system_rhs_current s;
     solution_current := solution_current s;
     old_solution_current := old_solution_current s;
     system_matrix_heat := system_matrix_heat s;
     system_rhs_heat := system_rhs_heat s; solution_heat := solution_heat s;
     old_solution_heat := old_solution_heat s;
     const_temperature_solution := const_temperature_solution s; pq := pq s;
     interface_map_field := interface_map_field s;
     interface_map_emission_current := interface_map_emission_current s;
     interface_map_nottingham := interface_map_nottingham s; cerr := v |}.

(** [std::map::insert]: an existing key keeps its value. *)
Definition map_insert (k : nat * nat) (v : float) (m : gmap (nat * nat) float) :
    gmap (nat * nat) float :=
  match m !! k with
  | Some _ => m
  | None => <[k := v]> m
  end.

(** [std::map::empty]. *)
Definition map_empty (m : gmap (nat * nat) float) : bool :=
  bool_decide (m = ∅).

(** The two-argument constructor; the vectors and matrices are filled by the
    setup methods. *)
Definition construct (time_step_ : float) (pq_ : PhysicalQuantitiesObject) : State :=
  {| time_step := time_step_; uniform_efield_bc := 1.0;
     system_matrix_current := fun _ _ => 0; system_rhs_current := [];
     solution_current := []; old_solution_current := [];
     system_matrix_heat := fun _ _ => 0; system_rhs_heat := [];
     solution_heat := []; old_solution_heat := [];
     const_temperature_solution := []; pq := pq_;
     interface_map_field := ∅; interface_map_emission_current := ∅;
     interface_map_nottingham := ∅; cerr := [] |}.

(** *** The mesh and the interface maps *)
Section Interface.

(** [Point<dim>] with its method [distance]. *)
Variable Point : Type.
Variable distance : Point -> Point -> float.

(** The value of [BoundaryId::copper_surface] (mesh_preparer.h). *)
Variable copper_surface : nat.

(** What the methods read of a face and of an active cell of the
    triangulation: [at_boundary()], [boundary_id()], [center()]; [index()] and
    the faces [face(0)], [face(1)], ... *)
Record Face := { at_boundary : bool; boundary_id : nat; center : Point }.
Record Cell := { index : nat; faces : list Face }.

(** The active cells in the order of the cell iterator. *)
Variable mesh : list Cell.

(** The loop nest shared by the setters and by [get_surface_nodes]:
    [for (cell ...) for (f = 0; f < faces_per_cell; f++)
       if (cell->face(f)->boundary_id() == BoundaryId::copper_surface) ...],
    as the list of the faces it visits, each with its (cell index, f). *)
Fixpoint copper_faces_from (f : nat) (fs : list Face) : list (nat * Face) :=
  match fs with
  | [] => []
  | face :: rest =>
      if (boundary_id face =? copper_surface)%nat
      then (f, face) :: copper_faces_from (S f) rest
      else copper_faces_from (S f) rest
  end.

Definition cell_interface_faces (cell : Cell) : list (FaceInfo * Face) :=
  map (fun ff : nat * Face => ((index cell, ff.1), ff.2))
      (copper_faces_from 0 (faces cell)).

Definition interface_faces (cells : list Cell) : list (FaceInfo * Face) :=
  flat_map cell_interface_faces cells.

Definition get_surface_nodes : list Point :=
  map (fun x : FaceInfo * Face => center x.2) (interface_faces mesh).

(** [set_electric_field_bc(const std::vector<double>&)]: the body of the loop
    on the pair (map, [i]); [elfields[i]] outside the vector is undefined. *)
Definition ordered_insert (elfields : Vector)
    (acc : option (gmap (nat * nat) float * nat)) (x : FaceInfo * Face) :
    option (gmap (nat * nat) float * nat) :=
  '(m, i) ← acc;
  v ← elfields !! i;
  Some (map_insert x.1 v m, S i).

Definition set_electric_field_bc_vector (elfields : Vector) (s : State) : option State :=
  '(m, _) ← fold_left (ordered_insert elfields) (interface_faces mesh) (Some (∅, 0%nat));
  Some (with_interface_map_field m s).

(** [set_electric_field_bc(const double)]. *)
Definition set_electric_field_bc_uniform (uniform_efield : float) (s : State) : State :=
  with_uniform_efield_bc uniform_efield s.

Definition emission_insert (emission_currents nottingham_heats : Vector)
    (acc : option (gmap (nat * nat) float * gmap (nat * nat) float * nat))
    (x : FaceInfo * Face) :
    option (gmap (nat * nat) float * gmap (nat * nat) float * nat) :=
  '(me, mn, i) ← acc;
  e ← emission_currents !! i;
  n ← nottingham_heats !! i;
  Some (map_insert x.1 e me, map_insert x.1 n mn, S i).

Definition set_emission_bc (emission_currents nottingham_heats : Vector)
    (s : State) : option State :=
  '(me, mn, _) ← fold_left (emission_insert emission_currents nottingham_heats)
                    (interface_faces mesh) (Some (∅, ∅, 0%nat));
  Some (with_emission_maps me mn s).

(** [set_electric_field_bc(const Laplace<dim>&)].  Of the [Laplace] object
    the method reads the vacuum cells and, at the centre of a face, the norm
    of the gradient of its solution. *)
Record Laplace := {
  laplace_cells : list Cell;
  laplace_efield_norm : FaceInfo -> float
}.

Definition match_eps : float := 1e-9.

(** The vectors [vacuum_interface_centers] and [vacuum_interface_efield],
    filled in lockstep, as one list of pairs. *)
Definition vacuum_interface (laplace : Laplace) : list (Point * float) :=
  map (fun x : FaceInfo * Face => (center x.2, laplace_efield_norm laplace x.1))
      (interface_faces (laplace_cells laplace)).

(** The inner loop over the vacuum side, up to its [break]. *)
Fixpoint first_match (cop_face_center : Point) (vac : list (Point * float)) :
    option float :=
  match vac with
  | [] => None
  | (c, e) :: rest =>
      if distance cop_face_center c <? match_eps then Some e
      else first_match cop_face_center rest
  end.

Definition mismatch_message : string :=
  "Error: probably a mismatch between copper and vacuum meshes.".

Definition laplace_insert (vac : list (Point * float))
    (acc : gmap (nat * nat) float * list string) (x : FaceInfo * Face) :
    gmap (nat * nat) float * list string :=
  let m := match first_match (center x.2) vac with
           | Some e => map_insert x.1 e acc.1
           | None => acc.1
           end in
  match m !! x.1 with
  | None => (m, acc.2 ++ [mismatch_message])
  | Some _ => (m, acc.2)
  end.

Definition set_electric_field_bc_laplace (laplace : Laplace) (s : State) : State :=
  let r := fold_left (laplace_insert (vacuum_interface laplace))
             (interface_faces mesh) (∅, cerr s) in
  with_cerr r.2 (with_interface_map_field r.1 s).

(** The getters.  [None] is a failed [assert]. *)
Definition get_efield_bc (s : State) (cop_cell_info : FaceInfo) : option float :=
  if map_empty (interface_map_field s) then Some (uniform_efield_bc s)
  else interface_map_field s !! cop_cell_info.

Definition get_emission_current_bc (s : State) (cop_cell_info : FaceInfo)
    (temperature : float) : option float :=
  if map_empty (interface_map_emission_current s) then
    e_field ← get_efield_bc s cop_cell_info;
    Some (pq_emission_current (pq s) e_field temperature)
  else interface_map_emission_current s !! cop_cell_info.

Definition get_nottingham_heat_bc (s : State) (cop_cell_info : FaceInfo)
    (temperature : float) : option float :=
  if map_empty (interface_map_nottingham s) then
    e_field ← get_efield_bc s cop_cell_info;
    let emission_current := pq_emission_current (pq s) e_field temperature in
    Some (-1.0 * pq_nottingham_de (pq s) e_field temperature * emission_current)
  else interface_map_nottingham s !! cop_cell_info.

(** **** Face identities are unique when cell indices are *)

Lemma copper_faces_from_ge (fs : list Face) :
  forall (f f' : nat) (face : Face),
    In (f', face) (copper_faces_from f fs) -> (f <= f')%nat.
Proof.
  induction fs as [|a rest IH]; intros f f' face Hin; simpl in Hin; [contradiction|].
  destruct (boundary_id a =? copper_surface)%nat.
  - destruct Hin as [Heq|Hin]; [injection Heq as <- _; lia|].
    apply IH in Hin. lia.
  - apply IH in Hin. lia.
Qed.

Lemma copper_faces_from_NoDup (fs : list Face) :
  forall f : nat, NoDup (map fst (copper_faces_from f fs)).
Proof.
  induction fs as [|a rest IH]; intros f; simpl; [constructor|].
  destruct (boundary_id a =? copper_surface)%nat; [|apply IH].
  simpl. apply NoDup_cons. split; [|apply IH].
  rewrite list_elem_of_In. intros Hin.
  apply in_map_iff in Hin as ([f' face] & Hf & Hin).
  simpl in Hf. subst f'. apply copper_faces_from_ge in Hin. lia.
Qed.

Lemma cell_interface_faces_index (cell : Cell) (x : FaceInfo * Face) :
  In x (cell_interface_faces cell) -> x.1.1 = index cell.
Proof.
  unfold cell_interface_faces. intros Hin.
  apply in_map_iff in Hin as (ff & <- & _). reflexivity.
Qed.

Lemma cell_interface_faces_NoDup (cell : Cell) :
  NoDup (map fst (cell_interface_faces cell)).
Proof.
  unfold cell_interface_faces. rewrite map_map. simpl.
  pose proof (copper_faces_from_NoDup (faces cell) 0) as Hnd.
  remember (copper_faces_from 0 (faces cell)) as l eqn:El. clear El.
  induction l as [|a l IH]; simpl; [constructor|].
  simpl in Hnd. apply NoDup_cons in Hnd as [Hni Hnd].
  apply NoDup_cons. split; [|apply IH; exact Hnd].
  intros Hin. apply Hni. apply list_elem_of_In.
  apply list_elem_of_In, in_map_iff in Hin as (b & Hb & Hin).
  injection Hb as Hb. apply in_map_iff. exists b. split; [exact Hb | exact Hin].
Qed.

Lemma interface_faces_NoDup (cells : list Cell) :
  NoDup (map index cells) -> NoDup (map fst (interface_faces cells)).
Proof.
  induction cells as [|c rest IH]; simpl; intros Hnd; [constructor|].
  apply NoDup_cons in Hnd as [Hni Hnd].
  rewrite map_app. apply NoDup_app.
  split; [apply cell_interface_faces_NoDup|]. split; [|apply IH, Hnd].
  intros k Hk1 Hk2. apply Hni. apply list_elem_of_In.
  apply list_elem_of_In, in_map_iff in Hk1 as (x & <- & Hx).
  apply list_elem_of_In, in_map_iff in Hk2 as (y & Hy & Hiny).
  apply cell_interface_faces_index in Hx.
  unfold interface_faces in Hiny. apply in_flat_map in Hiny as (c' & Hc' & Hiny).
  apply cell_interface_faces_index in Hiny.
  apply in_map_iff. exists c'. split; [congruence | exact Hc'].
Qed.

(** **** The ordered setter *)

Lemma map_insert_fresh (k : nat * nat) (v : float) (m : gmap (nat * nat) float) :
  m !! k = None -> map_insert k v m = <[k := v]> m.
Proof. unfold map_insert. intros ->. reflexivity. Qed.

Lemma map_empty_false (m : gmap (nat * nat) float) (k : nat * nat) (v : float) :
  m !! k = Some v -> map_empty m = false.
Proof.
  intros Hk. unfold map_empty. apply bool_decide_eq_false.
  intros ->. rewrite lookup_empty in Hk. discriminate.
Qed.

Lemma ordered_fold_spec (elfields : Vector) (l : list (FaceInfo * Face)) :
  forall (m : gmap (nat * nat) float) (i : nat),
    NoDup (map fst l) ->
    (forall x, In x l -> m !! x.1 = None) ->
    (i + length l <= length elfields)%nat ->
    exists m',
      fold_left (ordered_insert elfields) l (Some (m, i)) =
        Some (m', (i + length l)%nat) /\
      (forall j x, l !! j = Some x -> m' !! x.1 = elfields !! (i + j)%nat) /\
      (forall k, ~ In k (map fst l) -> m' !! k = m !! k).
Proof.
  induction l as [|a l IH]; intros m i Hnd Hfresh Hlen.
  - exists m. simpl. rewrite Nat.add_0_r.
    split; [reflexivity|]. split; [intros j x Hj; discriminate | reflexivity].
  - simpl in Hnd. apply NoDup_cons in Hnd as [Hni Hnd].
    assert (Hni' : ~ In a.1 (map fst l))
      by (intros Hin; apply Hni, list_elem_of_In, Hin).
    clear Hni. rename Hni' into Hni. simpl in Hlen.
    destruct (lookup_lt_is_Some_2 elfields i ltac:(lia)) as [v Hv].
    assert (Hstep : ordered_insert elfields (Some (m, i)) a =
              Some (<[a.1 := v]> m, S i)).
    { unfold ordered_insert. simpl. rewrite Hv. simpl.
      rewrite map_insert_fresh; [reflexivity|]. apply Hfresh. left. reflexivity. }
    destruct (IH (<[a.1 := v]> m) (S i) Hnd) as (m' & Hfold & Hval & Hother).
    + intros x Hx. rewrite lookup_insert_ne; [apply Hfresh; right; exact Hx|].
      intros Heq. apply Hni. apply in_map_iff. exists x. split; [congruence|exact Hx].
    + lia.
    + exists m'. cbn [fold_left]. rewrite Hstep.
      replace (i + length (a :: l))%nat with (S i + length l)%nat
        by (simpl; lia).
      split; [exact Hfold|]. split.
      * intros [|j] x Hj; simpl in Hj.
        -- injection Hj as <-. rewrite (Hother a.1 Hni), lookup_insert_eq.
           rewrite Nat.add_0_r. symmetry. exact Hv.
        -- rewrite (Hval j x Hj). f_equal. lia.
      * intros k Hk. rewrite Hother; [|intros Hin; apply Hk; right; exact Hin].
        apply lookup_insert_ne. intros Heq. apply Hk. left. exact Heq.
Qed.

(** C7.  With pairwise distinct cell indices and one value per interface
    face, [set_electric_field_bc(vector)] succeeds; the i-th face of the
    traversal, whose centre is the i-th node of [get_surface_nodes], is mapped
    to the i-th value; and [get_efield_bc] over the faces in that order
    returns the supplied values in the same order. *)
Theorem set_electric_field_bc_vector_round_trip (elfields : Vector) (s : State) :
  NoDup (map index mesh) ->
  length elfields = length (interface_faces mesh) ->
  exists s',
    set_electric_field_bc_vector elfields s = Some s' /\
    length get_surface_nodes = length elfields /\
    (forall i x, interface_faces mesh !! i = Some x ->
       get_surface_nodes !! i = Some (center x.2) /\
       interface_map_field s' !! x.1 = elfields !! i /\
       get_efield_bc s' x.1 = elfields !! i) /\
    mapM (get_efield_bc s') (map fst (interface_faces mesh)) = Some elfields.
Proof.
  intros Hidx Hlen.
  destruct (ordered_fold_spec elfields (interface_faces mesh) ∅ 0
              (interface_faces_NoDup mesh Hidx)) as (m' & Hfold & Hval & _).
  { intros x _. apply lookup_empty. }
  { lia. }
  exists (with_interface_map_field m' s).
  assert (Hget : forall i x, interface_faces mesh !! i = Some x ->
            get_efield_bc (with_interface_map_field m' s) x.1 = elfields !! i).
  { intros i x Hx. unfold get_efield_bc. simpl.
    pose proof (Hval i x Hx) as Hm. simpl in Hm.
    destruct (lookup_lt_is_Some_2 elfields i) as [v Hv].
    { apply lookup_lt_Some in Hx. lia. }
    rewrite Hv in Hm. rewrite (map_empty_false m' x.1 v Hm), Hm, Hv. reflexivity. }
  split; [unfold set_electric_field_bc_vector; rewrite Hfold; reflexivity|].
  split; [unfold get_surface_nodes; rewrite length_map; lia|].
  split.
  - intros i x Hx. split; [|split].
    + unfold get_surface_nodes.
      change (map ?f ?l) with (f <$> l). rewrite list_lookup_fmap, Hx. reflexivity.
    + simpl. apply (Hval i x Hx).
    + apply (Hget i x Hx).
  - apply mapM_Some. apply Forall2_same_length_lookup_2.
    + rewrite length_map. lia.
    + intros i k v Hk Hv.
      change (map ?f ?l) with (f <$> l) in Hk. rewrite list_lookup_fmap in Hk.
      destruct (interface_faces mesh !! i) as [x|] eqn:Hx; [|discriminate].
      simpl in Hk. injection Hk as <-. rewrite (Hget i x Hx). exact Hv.
Qed.

(** **** The setter that matches centroids *)

Definition is_unmatched (vac : list (Point * float)) (x : FaceInfo * Face) : bool :=
  match first_match (center x.2) vac with
  | None => true
  | Some _ => false
  end.

Lemma first_match_Some (p : Point) (vac : list (Point * float)) :
  forall (i : nat) (c : Point) (e : float),
    vac !! i = Some (c, e) ->
    (distance p c <? match_eps) = true ->
    (forall j c' e', (j < i)%nat -> vac !! j = Some (c', e') ->
       (distance p c' <? match_eps) = false) ->
    first_match p vac = Some e.
Proof.
  induction vac as [|[c0 e0] rest IH]; intros i c e Hi Hd Hfirst; [discriminate|].
  simpl. destruct i as [|i]; simpl in Hi.
  - injection Hi as -> ->. rewrite Hd. reflexivity.
  - rewrite (Hfirst 0%nat c0 e0 ltac:(lia) eq_refl).
    apply (IH i c e Hi Hd). intros j c' e' Hj Hl.
    apply (Hfirst (S j) c' e'); [lia | exact Hl].
Qed.

Lemma first_match_None (p : Point) (vac : list (Point * float)) :
  (forall c e, In (c, e) vac -> (distance p c <? match_eps) = false) ->
  first_match p vac = None.
Proof.
  induction vac as [|[c0 e0] rest IH]; intros Hall; [reflexivity|].
  simpl. rewrite (Hall c0 e0 (or_introl eq_refl)).
  apply IH. intros c e Hin. apply (Hall c e). right. exact Hin.
Qed.

Lemma laplace_fold_spec (vac : list (Point * float)) (l : list (FaceInfo * Face)) :
  forall (m : gmap (nat * nat) float) (log : list string),
    NoDup (map fst l) ->
    (forall x, In x l -> m !! x.1 = None) ->
    let r := fold_left (laplace_insert vac) l (m, log) in
    (forall x, In x l -> r.1 !! x.1 = first_match (center x.2) vac) /\
    (forall k, ~ In k (map fst l) -> r.1 !! k = m !! k) /\
    r.2 = log ++ replicate (length (List.filter (is_unmatched vac) l))
                           mismatch_message.
Proof.
  induction l as [|a l IH]; intros m log Hnd Hfresh.
  - simpl. split; [intros x []|]. split; [reflexivity|].
    rewrite app_nil_r. reflexivity.
  - simpl in Hnd. apply NoDup_cons in Hnd as [Hni Hnd].
    assert (Hni' : ~ In a.1 (map fst l))
      by (intros Hin; apply Hni, list_elem_of_In, Hin).
    clear Hni. rename Hni' into Hni.
    pose proof (Hfresh a (or_introl eq_refl)) as Hma.
    set (st1 := laplace_insert vac (m, log) a).
    assert (Hst1 : st1.1 !! a.1 = first_match (center a.2) vac /\
              (forall k, k <> a.1 -> st1.1 !! k = m !! k) /\
              st1.2 = log ++ (if is_unmatched vac a then [mismatch_message] else [])).
    { unfold st1, laplace_insert, is_unmatched. simpl.
      destruct (first_match (center a.2) vac) as [e|] eqn:Ef.
      - rewrite (map_insert_fresh a.1 e m Hma), lookup_insert_eq. simpl.
        split; [apply lookup_insert_eq|].
        split; [|rewrite app_nil_r; reflexivity].
        intros k Hk. apply lookup_insert_ne. congruence.
      - rewrite Hma. simpl. split; [exact Hma|]. split; reflexivity. }
    destruct Hst1 as (Ha & Hoth1 & Hlog1).
    cbv zeta. cbn [fold_left]. fold st1.
    destruct (IH st1.1 st1.2 Hnd) as (Hval & Hother & Hlog).
    { intros x Hx. rewrite Hoth1; [apply Hfresh; right; exact Hx|].
      intros Heq. apply Hni. apply in_map_iff. exists x. split; [exact Heq|exact Hx]. }
    replace (st1.1, st1.2) with st1 in * by (destruct st1; reflexivity).
    split; [|split].
    + intros x [<-|Hx]; [|apply Hval; exact Hx].
      rewrite (Hother a.1 Hni). exact Ha.
    + intros k Hk. rewrite Hother; [|intros Hin; apply Hk; right; exact Hin].
      apply Hoth1. intros Heq. apply Hk. left. congruence.
    + rewrite Hlog, Hlog1. cbn [List.filter].
      destruct (is_unmatched vac a); simpl; rewrite <- app_assoc; reflexivity.
Qed.

(** C8.  With pairwise distinct cell indices, after
    [set_electric_field_bc(laplace)]: an interface face whose centre has a
    vacuum centroid within the tolerance is mapped to the value of the first
    such centroid; a face with no such centroid is absent from the map; faces
    that are not interface faces are absent; and the run, which always
    completes, has written one diagnostic line per unmatched face. *)
Theorem set_electric_field_bc_laplace_spec (laplace : Laplace) (s : State) :
  NoDup (map index mesh) ->
  let s' := set_electric_field_bc_laplace laplace s in
  let vac := vacuum_interface laplace in
  (forall x, In x (interface_faces mesh) ->
     (forall i c e,
        vac !! i = Some (c, e) ->
        (distance (center x.2) c <? match_eps) = true ->
        (forall j c' e', (j < i)%nat -> vac !! j = Some (c', e') ->
           (distance (center x.2) c' <? match_eps) = false) ->
        interface_map_field s' !! x.1 = Some e) /\
     ((forall c e, In (c, e) vac ->
         (distance (center x.2) c <? match_eps) = false) ->
      interface_map_field s' !! x.1 = None)) /\
  (forall k, ~ In k (map fst (interface_faces mesh)) ->
     interface_map_field s' !! k = None) /\
  cerr s' =
    cerr s ++ replicate (length (List.filter (is_unmatched vac) (interface_faces mesh)))
                        mismatch_message.
Proof.
  intros Hidx s' vac.
  destruct (laplace_fold_spec vac (interface_faces mesh) ∅ (cerr s)
              (interface_faces_NoDup mesh Hidx)) as (Hval & Hother & Hlog).
  { intros x _. apply lookup_empty. }
  unfold s', set_electric_field_bc_laplace. fold vac. simpl.
  split; [|split].
  - intros x Hx. rewrite (Hval x Hx). split.
    + intros i c e Hi Hd Hfirst. eapply first_match_Some; eassumption.
    + apply first_match_None.
  - intros k Hk. rewrite (Hother k Hk). apply lookup_empty.
  - exact Hlog.
Qed.

(** **** The uniform setter *)

Lemma get_efield_bc_uniform_fresh (c : float) (s : State) (info : FaceInfo) :
  interface_map_field s = ∅ ->
  get_efield_bc (set_electric_field_bc_uniform c s) info = Some c.
Proof.
  intros He. unfold get_efield_bc, set_electric_field_bc_uniform. simpl.
  rewrite He. reflexivity.
Qed.

Lemma get_efield_bc_uniform_stale (c v : float) (s : State) (info : FaceInfo) :
  interface_map_field s !! info = Some v ->
  get_efield_bc (set_electric_field_bc_uniform c s) info = Some v.
Proof.
  intros Hv. unfold get_efield_bc, set_electric_field_bc_uniform. simpl.
  rewrite (map_empty_false _ _ _ Hv). exact Hv.
Qed.

(** **** Further properties of the interface maps *)

Lemma fold_ordered_None (elfields : Vector) (l : list (FaceInfo * Face)) :
  fold_left (ordered_insert elfields) l None = None.
Proof. induction l as [|a l IH]; [reflexivity | exact IH]. Qed.

Lemma fold_emission_None (e n : Vector) (l : list (FaceInfo * Face)) :
  fold_left (emission_insert e n) l None = None.
Proof. induction l as [|a l IH]; [reflexivity | exact IH]. Qed.

(** The loop of [set_emission_bc] is the loop of the ordered field setter run
    on each of its two vectors. *)
Lemma emission_fold_split (e n : Vector) (l : list (FaceInfo * Face)) :
  forall (me mn : gmap (nat * nat) float) (i : nat),
    fold_left (emission_insert e n) l (Some (me, mn, i)) =
    match fold_left (ordered_insert e) l (Some (me, i)),
          fold_left (ordered_insert n) l (Some (mn, i)) with
    | Some (me', i'), Some (mn', _) => Some (me', mn', i')
    | _, _ => None
    end.
Proof.
  induction l as [|a l IH]; intros me mn i; [reflexivity|].
  cbn [fold_left]. unfold emission_insert at 2, ordered_insert at 2 4. simpl.
  destruct (e !! i) as [ve|]; simpl.
  - destruct (n !! i) as [vn|]; simpl.
    + apply IH.
    + rewrite fold_emission_None, fold_ordered_None.
      destruct (fold_left _ l _) as [[? ?]|]; reflexivity.
  - rewrite fold_emission_None, fold_ordered_None. reflexivity.
Qed.

(** The ordered loop succeeds exactly when the vector is long enough, and
    reads only the entries it consumes. *)
Lemma ordered_fold_length (elfields : Vector) (l : list (FaceInfo * Face)) :
  forall (m : gmap (nat * nat) float) (i : nat),
    (i <= length elfields)%nat ->
    ((i + length l <= length elfields)%nat <->
     is_Some (fold_left (ordered_insert elfields) l (Some (m, i)))).
Proof.
  induction l as [|a l IH]; intros m i Hi.
  - simpl. split; [intros _; eexists; reflexivity|].
    intros _. lia.
  - cbn [fold_left]. unfold ordered_insert at 2. simpl.
    destruct (elfields !! i) as [v|] eqn:Hv; simpl.
    + apply lookup_lt_Some in Hv. rewrite <- IH by lia. lia.
    + rewrite fold_ordered_None. apply lookup_ge_None in Hv.
      split; [lia | intros [? ?]; discriminate].
Qed.

Lemma ordered_fold_agree (v1 v2 : Vector) (l : list (FaceInfo * Face)) :
  forall (m : gmap (nat * nat) float) (i : nat),
    (forall j, (j < i + length l)%nat -> v1 !! j = v2 !! j) ->
    fold_left (ordered_insert v1) l (Some (m, i)) =
    fold_left (ordered_insert v2) l (Some (m, i)).
Proof.
  induction l as [|a l IH]; intros m i Hag; [reflexivity|].
  cbn [fold_left]. unfold ordered_insert at 2 4. simpl.
  rewrite <- (Hag i) by (simpl; lia).
  destruct (v1 !! i) as [v|]; simpl.
  - apply IH. intros j Hj. apply Hag. simpl. lia.
  - rewrite !fold_ordered_None. reflexivity.
Qed.

(** X5.  With pairwise distinct cell indices and one emission current and one
    Nottingham heat per interface face, [set_emission_bc] succeeds and leaves
    the field map alone; afterwards the two getters return the i-th supplied
    values on the i-th face at every temperature, and no later change of the
    electric field (uniform or per face) alters what they return. *)
Theorem set_emission_bc_round_trip (emission_currents nottingham_heats : Vector)
    (s : State) :
  NoDup (map index mesh) ->
  length emission_currents = length (interface_faces mesh) ->
  length nottingham_heats = length (interface_faces mesh) ->
  exists s',
    set_emission_bc emission_currents nottingham_heats s = Some s' /\
    interface_map_field s' = interface_map_field s /\
    forall i x temperature,
      interface_faces mesh !! i = Some x ->
      get_emission_current_bc s' x.1 temperature = emission_currents !! i /\
      get_nottingham_heat_bc s' x.1 temperature = nottingham_heats !! i /\
      (forall c,
         get_emission_current_bc (set_electric_field_bc_uniform c s') x.1 temperature
         = emission_currents !! i /\
         get_nottingham_heat_bc (set_electric_field_bc_uniform c s') x.1 temperature
         = nottingham_heats !! i) /\
      (forall e_fields s'',
         set_electric_field_bc_vector e_fields s' = Some s'' ->
         get_emission_current_bc s'' x.1 temperature = emission_currents !! i /\
         get_nottingham_heat_bc s'' x.1 temperature = nottingham_heats !! i).
Proof.
  intros Hidx He Hn.
  pose proof (interface_faces_NoDup mesh Hidx) as Hnd.
  destruct (ordered_fold_spec emission_currents (interface_faces mesh) ∅ 0 Hnd)
    as (me & Hfe & Hve & _); [intros x _; apply lookup_empty | lia |].
  destruct (ordered_fold_spec nottingham_heats (interface_faces mesh) ∅ 0 Hnd)
    as (mn & Hfn & Hvn & _); [intros x _; apply lookup_empty | lia |].
  exists (with_emission_maps me mn s).
  split.
  { unfold set_emission_bc. rewrite emission_fold_split, Hfe, Hfn. reflexivity. }
  split; [reflexivity|].
  intros i x temperature Hx.
  destruct (lookup_lt_is_Some_2 emission_currents i) as [ve Hie].
  { apply lookup_lt_Some in Hx. lia. }
  destruct (lookup_lt_is_Some_2 nottingham_heats i) as [vn Hin].
  { apply lookup_lt_Some in Hx. lia. }
  pose proof (Hve i x Hx) as Hme. pose proof (Hvn i x Hx) as Hmn.
  simpl in Hme, Hmn. rewrite Hie in Hme. rewrite Hin in Hmn.
  assert (Hany : forall t : State,
            interface_map_emission_current t = me ->
            interface_map_nottingham t = mn ->
            get_emission_current_bc t x.1 temperature = emission_currents !! i /\
            get_nottingham_heat_bc t x.1 temperature = nottingham_heats !! i).
  { intros t Hte Htn. unfold get_emission_current_bc, get_nottingham_heat_bc.
    rewrite Hte, Htn, (map_empty_false me x.1 ve Hme),
      (map_empty_false mn x.1 vn Hmn), Hme, Hmn, Hie, Hin.
    split; reflexivity. }
  destruct (Hany (with_emission_maps me mn s) eq_refl eq_refl) as [G1 G2].
  split; [exact G1|]. split; [exact G2|]. split.
  - intros c. apply Hany; reflexivity.
  - intros e_fields s'' Hset. unfold set_electric_field_bc_vector in Hset.
    destruct (fold_left (ordered_insert e_fields) _ _) as [[m k]|];
      simpl in Hset; [|discriminate].
    injection Hset as <-. apply Hany; reflexivity.
Qed.

(** X6.  [set_electric_field_bc(vector)] replaces the map: whatever the map
    held before, afterwards its keys are exactly the interface faces.  With
    no interface face the map is empty and every lookup falls back to the
    uniform field; with at least one, a lookup on any other face fails the
    [assert]. *)
Theorem set_electric_field_bc_vector_replaces (elfields : Vector) (s : State) :
  NoDup (map index mesh) ->
  length elfields = length (interface_faces mesh) ->
  exists s',
    set_electric_field_bc_vector elfields s = Some s' /\
    (forall k, is_Some (interface_map_field s' !! k) <->
               In k (map fst (interface_faces mesh))) /\
    (interface_faces mesh = [] ->
     forall k, get_efield_bc s' k = Some (uniform_efield_bc s)) /\
    (interface_faces mesh <> [] ->
     forall k, ~ In k (map fst (interface_faces mesh)) -> get_efield_bc s' k = None).
Proof.
  intros Hidx Hlen.
  destruct (ordered_fold_spec elfields (interface_faces mesh) ∅ 0
              (interface_faces_NoDup mesh Hidx)) as (m' & Hfold & Hval & Hother);
    [intros x _; apply lookup_empty | lia |].
  exists (with_interface_map_field m' s).
  split; [unfold set_electric_field_bc_vector; rewrite Hfold; reflexivity|].
  assert (Hdom : forall k, is_Some (m' !! k) <-> In k (map fst (interface_faces mesh))).
  { intros k. split.
    - intros Hk. destruct (in_dec (fun a b : nat * nat => decide (a = b)) k
                             (map fst (interface_faces mesh))) as [Hin|Hni];
        [exact Hin|].
      rewrite (Hother k Hni), lookup_empty in Hk. destruct Hk; discriminate.
    - intros Hin. apply in_map_iff in Hin as (x & <- & Hx).
      apply list_elem_of_In, list_elem_of_lookup_1 in Hx as [i Hi].
      rewrite (Hval i x Hi). simpl. apply lookup_lt_is_Some_2.
      apply lookup_lt_Some in Hi. lia. }
  split; [exact Hdom|]. split.
  - intros Hnil k. unfold get_efield_bc. simpl.
    assert (Hm : m' = ∅).
    { apply map_eq. intros j. rewrite lookup_empty.
      destruct (m' !! j) eqn:E; [|reflexivity].
      assert (Hj : is_Some (m' !! j)) by (rewrite E; eauto).
      apply Hdom in Hj. rewrite Hnil in Hj. destruct Hj. }
    rewrite Hm. reflexivity.
  - intros Hne k Hk. unfold get_efield_bc. simpl.
    destruct (interface_faces mesh) as [|x rest] eqn:El; [congruence|].
    assert (Hx : is_Some (m' !! x.1)) by (apply Hdom; left; reflexivity).
    destruct Hx as [v Hv]. rewrite (map_empty_false m' x.1 v Hv).
    destruct (m' !! k) eqn:E; [|reflexivity].
    exfalso. apply Hk. apply Hdom. rewrite E. eauto.
Qed.

(** X7.  [set_electric_field_bc(vector)] reads [elfields] outside its range
    exactly when it holds fewer values than there are interface faces; values
    beyond that number are never read, so appending any makes no
    difference. *)
Theorem set_electric_field_bc_vector_length (elfields surplus : Vector) (s : State) :
  (set_electric_field_bc_vector elfields s = None <->
   (length elfields < length (interface_faces mesh))%nat) /\
  ((length (interface_faces mesh) <= length elfields)%nat ->
   set_electric_field_bc_vector (elfields ++ surplus) s =
   set_electric_field_bc_vector elfields s).
Proof.
  split.
  - unfold set_electric_field_bc_vector.
    pose proof (ordered_fold_length elfields (interface_faces mesh) ∅ 0
                  ltac:(lia)) as Hiff.
    destruct (fold_left _ _ _) as [[m k]|]; simpl.
    + split; [discriminate|]. intros Hlt.
      assert (H : is_Some (Some (m, k))) by eauto. apply Hiff in H. lia.
    + split; [|reflexivity]. intros _.
      destruct (decide (length elfields < length (interface_faces mesh))%nat)
        as [H|H]; [exact H|].
      assert (Hs : is_Some (@None (gmap (nat * nat) float * nat)))
        by (apply Hiff; lia).
      destruct Hs; discriminate.
  - intros Hlen. unfold set_electric_field_bc_vector.
    rewrite (ordered_fold_agree (elfields ++ surplus) elfields); [reflexivity|].
    intros j Hj. apply lookup_app_l. simpl in Hj. lia.
Qed.

(** X8.  When no interface face of the conductor has a vacuum centroid within
    the tolerance (for one, when the vacuum mesh has no interface face at
    all), [set_electric_field_bc(laplace)] reports every face and leaves the
    map empty, so that every later lookup silently returns the uniform field.
    When some face is matched and another is not, the lookup on the unmatched
    one fails the [assert]. *)
Theorem set_electric_field_bc_laplace_unmatched (laplace : Laplace) (s : State) :
  NoDup (map index mesh) ->
  let s' := set_electric_field_bc_laplace laplace s in
  let vac := vacuum_interface laplace in
  ((forall x, In x (interface_faces mesh) -> first_match (center x.2) vac = None) ->
   interface_map_field s' = ∅ /\
   (forall k, get_efield_bc s' k = Some (uniform_efield_bc s)) /\
   cerr s' = cerr s ++ replicate (length (interface_faces mesh)) mismatch_message) /\
  (forall x y e,
     In x (interface_faces mesh) -> In y (interface_faces mesh) ->
     first_match (center x.2) vac = Some e ->
     first_match (center y.2) vac = None ->
     get_efield_bc s' x.1 = Some e /\ get_efield_bc s' y.1 = None).
Proof.
  intros Hidx s' vac.
  destruct (laplace_fold_spec vac (interface_faces mesh) ∅ (cerr s)
              (interface_faces_NoDup mesh Hidx)) as (Hval & Hother & Hlog).
  { intros x _. apply lookup_empty. }
  split.
  - intros Hnone.
    assert (Hm : interface_map_field s' = ∅).
    { unfold s', set_electric_field_bc_laplace. fold vac. simpl.
      apply map_eq. intros k. rewrite lookup_empty.
      destruct (in_dec (fun a b : nat * nat => decide (a = b)) k
                  (map fst (interface_faces mesh))) as [Hin|Hni].
      - apply in_map_iff in Hin as (x & <- & Hx).
        rewrite (Hval x Hx). apply Hnone, Hx.
      - rewrite (Hother k Hni). apply lookup_empty. }
    split; [exact Hm|]. split.
    + intros k. unfold get_efield_bc. rewrite Hm. reflexivity.
    + unfold s', set_electric_field_bc_laplace. fold vac. simpl. rewrite Hlog.
      f_equal. f_equal.
      assert (Hall : forall l : list (FaceInfo * Face),
                (forall x, In x l -> first_match (center x.2) vac = None) ->
                length (List.filter (is_unmatched vac) l) = length l).
      { induction l as [|a l IH]; intros Hl; [reflexivity|].
        cbn [List.filter]. unfold is_unmatched at 1.
        rewrite (Hl a (or_introl eq_refl)). simpl. f_equal.
        apply IH. intros x Hx. apply Hl. right. exact Hx. }
      apply Hall, Hnone.
  - intros x y e Hx Hy Hex Hey.
    assert (Hmx : interface_map_field s' !! x.1 = Some e).
    { unfold s', set_electric_field_bc_laplace. fold vac. simpl.
      rewrite (Hval x Hx). exact Hex. }
    assert (Hmy : interface_map_field s' !! y.1 = None).
    { unfold s', set_electric_field_bc_laplace. fold vac. simpl.
      rewrite (Hval y Hy). exact Hey. }
    unfold get_efield_bc. rewrite (map_empty_false _ _ _ Hmx), Hmx, Hmy.
    split; reflexivity.
Qed.

End Interface.

Arguments at_boundary {Point} _.
Arguments boundary_id {Point} _.
Arguments center {Point} _.
Arguments index {Point} _.
Arguments faces {Point} _.
Arguments laplace_cells {Point} _.
Arguments laplace_efield_norm {Point} _ _.

(** **** A two-cell strip under a vacuum mesh *)

(** Points of the plane with the Euclidean distance. *)
Definition plane_distance (p q : float * float) : float :=
  sqrt ((p.1 - q.1) * (p.1 - q.1) + (p.2 - q.2) * (p.2 - q.2)).

Definition side (id : nat) (c : float * float) : Face (float * float) :=
  {| at_boundary := negb (id =? 255)%nat; boundary_id := id; center := c |}.

(** Two unit squares side by side; boundary id 1 marks the copper surface
    (the top faces), 3 the bottom, 255 an interior face. *)
Definition strip : list (Cell (float * float)) :=
  [ {| index := 0; faces := [side 4 (0, 0.5); side 255 (1, 0.5);
                             side 3 (0.5, 0); side 1 (0.5, 1)] |};
    {| index := 1; faces := [side 255 (1, 0.5); side 4 (2, 0.5);
                             side 3 (1.5, 0); side 1 (1.5, 1)] |} ].

(** A vacuum mesh that shares only the first top face. *)
Definition vacuum_above : Laplace (float * float) :=
  {| laplace_cells :=
       [ {| index := 0; faces := [side 6 (0, 1.5); side 6 (1, 1.5);
                                  side 1 (0.5, 1); side 5 (0.5, 2)] |} ];
     laplace_efield_norm := fun _ => 3 |}.

Definition constant_pq : PhysicalQuantitiesObject :=
  {| pq_sigma := fun _ => 1; pq_kappa := fun _ => 1;
     pq_emission_current := fun _ _ => 2; pq_nottingham_de := fun _ _ => 3 |}.

Lemma strip_index_NoDup : NoDup (map index strip).
Proof. apply (bool_decide_unpack _). vm_compute. exact I. Qed.

Lemma set_electric_field_bc_vector_round_trip_witness :
  exists s',
    set_electric_field_bc_vector (float * float) 1 strip [2.5; 4]
      (construct 1e-13 constant_pq) = Some s' /\
    get_surface_nodes (float * float) 1 strip = [(0.5, 1); (1.5, 1)] /\
    mapM (get_efield_bc s') [(0, 3); (1, 3)]%nat = Some [2.5; 4].
Proof.
  destruct (set_electric_field_bc_vector_round_trip (float * float) 1 strip
              [2.5; 4] (construct 1e-13 constant_pq) strip_index_NoDup eq_refl)
    as (s' & Hset & _ & _ & Hall).
  exists s'. split; [exact Hset|]. split; [reflexivity | exact Hall].
Defined.

Lemma set_electric_field_bc_laplace_spec_witness :
  let s' := set_electric_field_bc_laplace (float * float) plane_distance 1 strip
              vacuum_above (construct 1e-13 constant_pq) in
  interface_map_field s' !! (0, 3)%nat = Some 3 /\
  interface_map_field s' !! (1, 3)%nat = None /\
  cerr s' = [mismatch_message].
Proof.
  intros s'.
  destruct (set_electric_field_bc_laplace_spec (float * float) plane_distance 1
              strip vacuum_above (construct 1e-13 constant_pq) strip_index_NoDup)
    as (Hfaces & _ & Hlog).
  split; [|split].
  - destruct (Hfaces ((0, 3)%nat, side 1 (0.5, 1))) as [Hm _].
    { left. reflexivity. }
    apply (Hm 0%nat (0.5, 1) 3); [reflexivity | reflexivity |].
    intros j c' e' Hj. lia.
  - destruct (Hfaces ((1, 3)%nat, side 1 (1.5, 1))) as [_ Hn].
    { right. left. reflexivity. }
    apply Hn. intros c e [Heq|[]]. injection Heq as <- <-. reflexivity.
  - exact Hlog.
Defined.

(** C1 at a failing input.  On the strip, after the per-face values 5 and 7
    have been set, the uniform setter with 2 leaves the map in effect: the
    lookup on the first interface face still returns 5. *)
Theorem set_electric_field_bc_uniform_keeps_map :
  exists s1,
    set_electric_field_bc_vector (float * float) 1 strip [5; 7]
      (construct 1e-13 constant_pq) = Some s1 /\
    uniform_efield_bc (set_electric_field_bc_uniform 2 s1) = 2 /\
    map_empty (interface_map_field (set_electric_field_bc_uniform 2 s1)) = false /\
    get_efield_bc (set_electric_field_bc_uniform 2 s1) (0, 3)%nat = Some 5.
Proof.
  eexists. split; [vm_compute; reflexivity|].
  split; [reflexivity|]. split; reflexivity.
Qed.

(** **** Instances on the strip *)

Lemma set_emission_bc_round_trip_witness :
  exists s',
    set_emission_bc (float * float) 1 strip [1; 2] [3; 4]
      (construct 1e-13 constant_pq) = Some s' /\
    get_emission_current_bc s' (1, 3)%nat 500 = Some 2 /\
    get_nottingham_heat_bc (set_electric_field_bc_uniform 9 s') (0, 3)%nat 500 = Some 3.
Proof.
  destruct (set_emission_bc_round_trip (float * float) 1 strip [1; 2] [3; 4]
              (construct 1e-13 constant_pq) strip_index_NoDup eq_refl eq_refl)
    as (s' & Hset & _ & Hall).
  exists s'. split; [exact Hset|]. split.
  - exact (proj1 (Hall 1%nat ((1, 3)%nat, side 1 (1.5, 1)) 500 eq_refl)).
  - destruct (Hall 0%nat ((0, 3)%nat, side 1 (0.5, 1)) 500 eq_refl)
      as (_ & _ & Hu & _).
    exact (proj2 (Hu 9)).
Defined.

Lemma set_electric_field_bc_vector_replaces_witness :
  exists s',
    set_electric_field_bc_vector (float * float) 1 strip [5; 7]
      (construct 1e-13 constant_pq) = Some s' /\
    get_efield_bc s' (0, 0)%nat = None.
Proof.
  destruct (set_electric_field_bc_vector_replaces (float * float) 1 strip [5; 7]
              (construct 1e-13 constant_pq) strip_index_NoDup eq_refl)
    as (s' & Hset & _ & _ & Hout).
  exists s'. split; [exact Hset|].
  apply Hout; [discriminate|].
  intros [H|[H|[]]]; discriminate H.
Defined.

(** A vacuum mesh without any interface face. *)
Definition vacuum_apart : Laplace (float * float) :=
  {| laplace_cells :=
       [ {| index := 0; faces := [side 6 (0, 1.5); side 6 (1, 1.5);
                                  side 6 (0.5, 1.2); side 5 (0.5, 2)] |} ];
     laplace_efield_norm := fun _ => 3 |}.

Lemma set_electric_field_bc_laplace_unmatched_witness :
  let s' := set_electric_field_bc_laplace (float * float) plane_distance 1 strip
              vacuum_apart (construct 1e-13 constant_pq) in
  get_efield_bc s' (0, 3)%nat = Some 1 /\
  cerr s' = [mismatch_message; mismatch_message].
Proof.
  intros s'.
  destruct (set_electric_field_bc_laplace_unmatched (float * float) plane_distance
              1 strip vacuum_apart (construct 1e-13 constant_pq) strip_index_NoDup)
    as [Hnone _].
  destruct Hnone as (_ & Hget & Hlog); [intros x _; reflexivity|].
  split; [apply Hget | exact Hlog].
Defined.

(** *** Loops *)

(** [for (i = 0; i < n; ++i) body], threading the state. *)
Definition for_loop {St : Type} (n : nat) (body : nat -> St -> St) (s : St) : St :=
  fold_left (fun s i => body i s) (seq 0 n) s.

(** The same loop when the body can fail an [assert]. *)
Definition for_loopM {St : Type} (n : nat) (body : nat -> St -> option St)
    (s : St) : option St :=
  fold_left (fun acc i => s ← acc; body i s) (seq 0 n) (Some s).

(** [m(i, j) += v] and [b(i) += v] on a local matrix and a local vector. *)
Definition mat_add (m : Matrix) (i j : nat) (v : float) : Matrix :=
  fun i' j' => if (i' =? i)%nat && (j' =? j)%nat then m i' j' + v else m i' j'.

Definition vec_add (b : nat -> float) (i : nat) (v : float) : nat -> float :=
  fun i' => if (i' =? i)%nat then b i' + v else b i'.

(** What an assembler holds while it works on a cell: [cell_matrix],
    [cell_rhs], and the running [max_heating_power]. *)
Record LocalSystem := {
  cell_matrix : Matrix;
  cell_rhs : nat -> float;
  max_heating_power : float
}.

Definition add_cell_matrix (i j : nat) (v : float) (l : LocalSystem) : LocalSystem :=
  {| cell_matrix := mat_add (cell_matrix l) i j v; cell_rhs := cell_rhs l;
     max_heating_power := max_heating_power l |}.

Definition add_cell_rhs (i : nat) (v : float) (l : LocalSystem) : LocalSystem :=
  {| cell_matrix := cell_matrix l; cell_rhs := vec_add (cell_rhs l) i v;
     max_heating_power := max_heating_power l |}.

(** [if (v > max_heating_power) max_heating_power = v;] *)
Definition raise_max_heating_power (v : float) (l : LocalSystem) : LocalSystem :=
  {| cell_matrix := cell_matrix l; cell_rhs := cell_rhs l;
     max_heating_power := if max_heating_power l <? v then v
                          else max_heating_power l |}.

(** [cell_matrix = 0; cell_rhs = 0;] *)
Definition clear_cell (l : LocalSystem) : LocalSystem :=
  {| cell_matrix := fun _ _ => 0; cell_rhs := fun _ => 0;
     max_heating_power := max_heating_power l |}.

(** *** The finite element systems *)

(** How [SolverCG<>::solve] is preconditioned. *)
Inductive Preconditioner :=
  | PreconditionSSOR (matrix : Matrix) (omega : float)
  | PreconditionIdentity.

(** An exception that leaves a call into the library. *)
Inductive Exception :=
  | LibraryException (what : string).

(** What a call of [SolverCG<>::solve] leaves behind: the iterate it wrote
    into [x], [SolverControl::last_step()], and the exception it ended with
    when it did not return. *)
Record SolverRun := {
  final_iterate : Vector;
  last_step : nat;
  raised : option Exception
}.

(** How a method that may throw ends, with the members as it leaves them. *)
Inductive Outcome (A : Type) :=
  | Returned (a : A) (s : State)
  | Thrown (e : Exception) (s : State).
Arguments Returned {A} a s.
Arguments Thrown {A} e s.

Definition final_state {A : Type} (o : Outcome A) : State :=
  match o with
  | Returned _ s => s
  | Thrown _ s => s
  end.

Section FiniteElements.

Variable Point : Type.
Variable distance : Point -> Point -> float.
Variable copper_surface copper_bottom : nat.
Variable mesh : list (Cell Point).

(** [Tensor<1, dim>] with its zero, [double * Tensor], [Tensor * Tensor] (the
    scalar product) and [norm_square()]. *)
Variable Tensor : Type.
Variable tensor_zero : Tensor.
Variable tensor_scale : float -> Tensor -> Tensor.
Variable tensor_dot : Tensor -> Tensor -> float.
Variable norm_square : Tensor -> float.

(** Both elements are [FE_Q<dim>(1)] and both assemblers use [QGauss] rules
    of order 2, so the three sizes are shared. *)
Variable dofs_per_cell n_q_points n_face_q_points : nat.

(** What deal.II computes for one field on this mesh: the [FEValues] and
    [FEFaceValues] tables after [reinit] on a cell (and a face), the values
    and gradients of a finite element function at the quadrature points
    ([get_function_values], [get_function_gradients]), the numbers of the
    degrees of freedom, and the boundary values of
    [interpolate_boundary_values]. *)
Record FiniteElement := {
  shape_value : Cell Point -> nat -> nat -> float;
  shape_grad : Cell Point -> nat -> nat -> Tensor;
  JxW : Cell Point -> nat -> float;
  face_shape_value : Cell Point -> nat -> nat -> nat -> float;
  face_JxW : Cell Point -> nat -> nat -> float;
  function_values : Cell Point -> Vector -> nat -> float;
  function_gradients : Cell Point -> Vector -> nat -> Tensor;
  face_function_values : Cell Point -> nat -> Vector -> nat -> float;
  dof_indices : Cell Point -> nat -> nat;
  vertex_dof_index : nat -> nat -> nat;
  n_dofs : nat;
  interpolate_boundary_values : nat -> float -> gmap nat float
}.

Variable fe_current fe_heat : FiniteElement.

(** [MatrixTools::apply_boundary_values] on (matrix, solution, rhs). *)
Variable apply_boundary_values :
  gmap nat float -> Matrix -> Vector -> Vector -> Matrix * Vector * Vector.

(** The conjugate gradient iteration of [SolverCG<>] under a
    [SolverControl(max_iter, tol)], from an initial guess. *)
Variable solver_cg :
  Z -> float -> Preconditioner -> Matrix -> Vector -> Vector -> SolverRun.

(** [Vector::linfty_norm]. *)
Definition linfty_norm (v : Vector) : float :=
  fold_left (fun m x => if m <? abs x then abs x else m) v 0.

(** **** Setup *)

Definition setup_current_system (s : State) : State :=
  let n := n_dofs fe_current in
  let vectors :=
    for_loop (length (replicate n 0))
      (fun i (v : Vector * Vector) => (<[i := 0]> v.1, <[i := 0]> v.2))
      (replicate n 0, replicate n 0) in
  with_old_solution_current vectors.2
    (with_current_system (fun _ _ => 0) (replicate n 0) vectors.1 s).

Definition setup_heating_system (s : State) : State :=
  let n := n_dofs fe_heat in
  let vectors :=
    for_loop (length (replicate n 0))
      (fun i (v : Vector * Vector * Vector) =>
         (<[i := ambient_temperature]> v.1.1,
          <[i := ambient_temperature]> v.1.2,
          <[i := 1000]> v.2))
      (replicate n 0, replicate n 0, replicate n 0) in
  with_const_temperature_solution vectors.2
    (with_old_solution_heat vectors.1.2
       (with_heat_system (fun _ _ => 0) (replicate n 0) vectors.1.1 s)).

(** **** Assembly *)

(** Whether the face loops of the assemblers enter a face. *)
Definition on_copper_surface (face : Face Point) : bool :=
  at_boundary face && (boundary_id face =? copper_surface)%nat.

(** [for (f = 0; f < faces_per_cell; ++f)] over the faces of a cell, with a
    body that can fail an [assert]. *)
Fixpoint for_faces {St : Type} (f : nat) (fs : list (Face Point))
    (body : nat -> Face Point -> St -> option St) (s : St) : option St :=
  match fs with
  | [] => Some s
  | face :: rest => s' ← body f face s; for_faces (S f) rest body s'
  end.

(** The copy of a cell's system into the global one. *)
Definition distribute_local (fe : FiniteElement) (cell : Cell Point)
    (loc : LocalSystem) (sys : Matrix * Vector) : Matrix * Vector :=
  for_loop dofs_per_cell (fun i sys =>
    let sys := for_loop dofs_per_cell (fun j (sys : Matrix * Vector) =>
                 (mat_add sys.1 (dof_indices fe cell i) (dof_indices fe cell j)
                    (cell_matrix loc i j), sys.2)) sys in
    (sys.1, alter (fun x => x + cell_rhs loc i) (dof_indices fe cell i) sys.2)) sys.

(** The loop over the cells, each cell's local system being added to the
    global one. *)
Definition assemble_cells (fe : FiniteElement)
    (local : Cell Point -> LocalSystem -> option LocalSystem)
    (sys : Matrix * Vector) : option (Matrix * Vector) :=
  r ← fold_left (fun acc cell =>
         '(sys, loc) ← acc;
         loc ← local cell (clear_cell loc);
         Some (distribute_local fe cell loc sys, loc))
       mesh
       (Some (sys, {| cell_matrix := fun _ _ => 0; cell_rhs := fun _ => 0;
                      max_heating_power := 0.0 |}));
  Some r.1.

Definition current_volume (s : State) (cell : Cell Point) (loc : LocalSystem) :
    LocalSystem :=
  for_loop n_q_points (fun q loc =>
    let temperature := function_values fe_heat cell (solution_heat s) q in
    let sigma := pq_sigma (pq s) temperature in
    for_loop dofs_per_cell (fun i loc =>
      for_loop dofs_per_cell (fun j loc =>
        add_cell_matrix i j
          (tensor_dot (shape_grad fe_current cell i q) (shape_grad fe_current cell j q)
           * sigma * JxW fe_current cell q) loc) loc) loc) loc.

Definition current_face (s : State) (cell : Cell Point) (f : nat)
    (face : Face Point) (loc : LocalSystem) : option LocalSystem :=
  if on_copper_surface face then
    for_loopM n_face_q_points (fun q loc =>
      let temperature := face_function_values fe_heat cell f (solution_heat s) q in
      emission_current ← get_emission_current_bc s (index cell, f) temperature;
      Some (for_loop dofs_per_cell (fun i loc =>
              add_cell_rhs i
                (face_shape_value fe_current cell f i q * emission_current
                 * face_JxW fe_current cell f q) loc) loc)) loc
  else Some loc.

Definition assemble_current_system (s : State) : option State :=
  sys ← assemble_cells fe_current
           (fun cell loc =>
              for_faces 0 (faces cell) (current_face s cell)
                (current_volume s cell loc))
           (system_matrix_current s, system_rhs_current s);
  let boundary_values := interpolate_boundary_values fe_current copper_bottom 0 in
  let r := apply_boundary_values boundary_values sys.1 (solution_current s) sys.2 in
  Some (with_current_system r.1.1 r.2 r.1.2 s).

Definition crank_nicolson_volume (s : State) (cell : Cell Point)
    (loc : LocalSystem) : LocalSystem :=
  let const_k := time_step s / (2.0 * cu_rho_cp) in
  for_loop n_q_points (fun q loc =>
    let prev_temperature := function_values fe_heat cell (old_solution_heat s) q in
    let kappa := pq_kappa (pq s) prev_temperature in
    let sigma := pq_sigma (pq s) prev_temperature in
    let prev_temperature_grad :=
      function_gradients fe_heat cell (old_solution_heat s) q in
    let pot_grad_squared :=
      norm_square (function_gradients fe_current cell (solution_current s) q) in
    let prev_pot_grad_squared :=
      norm_square (function_gradients fe_current cell (old_solution_current s) q) in
    for_loop dofs_per_cell (fun i loc =>
      let loc :=
        for_loop dofs_per_cell (fun j loc =>
          add_cell_matrix i j
            ((shape_value fe_heat cell i q * shape_value fe_heat cell j q
              + tensor_dot (tensor_scale (const_k * kappa) (shape_grad fe_heat cell i q))
                           (shape_grad fe_heat cell j q))
             * JxW fe_heat cell q) loc) loc in
      let loc :=
        add_cell_rhs i
          ((shape_value fe_heat cell i q * prev_temperature
            + const_k * shape_value fe_heat cell i q * sigma
              * (pot_grad_squared + prev_pot_grad_squared)
            - tensor_dot (tensor_scale (const_k * kappa) (shape_grad fe_heat cell i q))
                         prev_temperature_grad)
           * JxW fe_heat cell q) loc in
      raise_max_heating_power
        (1 / 2.0 * sigma * (pot_grad_squared + prev_pot_grad_squared)) loc) loc) loc.

Definition crank_nicolson_face (s : State) (cell : Cell Point) (f : nat)
    (face : Face Point) (loc : LocalSystem) : option LocalSystem :=
  let const_k := time_step s / (2.0 * cu_rho_cp) in
  if on_copper_surface face then
    for_loopM n_face_q_points (fun q loc =>
      let prev_temperature :=
        face_function_values fe_heat cell f (old_solution_heat s) q in
      nottingham_heat ← get_nottingham_heat_bc s (index cell, f) prev_temperature;
      Some (for_loop dofs_per_cell (fun i loc =>
              add_cell_rhs i
                (const_k * face_shape_value fe_heat cell f i q * 2.0
                 * nottingham_heat * face_JxW fe_heat cell f q) loc) loc)) loc
  else Some loc.

Definition crank_nicolson_cell (s : State) (cell : Cell Point)
    (loc : LocalSystem) : option LocalSystem :=
  for_faces 0 (faces cell) (crank_nicolson_face s cell)
    (crank_nicolson_volume s cell loc).

Definition assemble_heating_system_crank_nicolson (s : State) : option State :=
  sys ← assemble_cells fe_heat (crank_nicolson_cell s)
           (system_matrix_heat s, system_rhs_heat s);
  let boundary_values :=
    interpolate_boundary_values fe_heat copper_bottom ambient_temperature in
  let r := apply_boundary_values boundary_values sys.1 (solution_heat s) sys.2 in
  Some (with_heat_system r.1.1 r.2 r.1.2 s).

Definition euler_implicit_volume (s : State) (cell : Cell Point)
    (loc : LocalSystem) : LocalSystem :=
  let gamma := time_step s / cu_rho_cp in
  for_loop n_q_points (fun q loc =>
    let prev_temperature := function_values fe_heat cell (old_solution_heat s) q in
    let kappa := pq_kappa (pq s) prev_temperature in
    let sigma := pq_sigma (pq s) prev_temperature in
    let pot_grad_squared :=
      norm_square (function_gradients fe_current cell (solution_current s) q) in
    for_loop dofs_per_cell (fun i loc =>
      let loc :=
        for_loop dofs_per_cell (fun j loc =>
          add_cell_matrix i j
            ((shape_value fe_heat cell i q * shape_value fe_heat cell j q
              + tensor_dot (tensor_scale (gamma * kappa) (shape_grad fe_heat cell i q))
                           (shape_grad fe_heat cell j q))
             * JxW fe_heat cell q) loc) loc in
      let loc :=
        add_cell_rhs i
          ((shape_value fe_heat cell i q * prev_temperature
            + gamma * shape_value fe_heat cell i q * sigma * pot_grad_squared)
           * JxW fe_heat cell q) loc in
      raise_max_heating_power (sigma * pot_grad_squared) loc) loc) loc.

Definition euler_implicit_face (s : State) (cell : Cell Point) (f : nat)
    (face : Face Point) (loc : LocalSystem) : option LocalSystem :=
  let gamma := time_step s / cu_rho_cp in
  if on_copper_surface face then
    for_loopM n_face_q_points (fun q loc =>
      let prev_temperature :=
        face_function_values fe_heat cell f (old_solution_heat s) q in
      nottingham_heat ← get_nottingham_heat_bc s (index cell, f) prev_temperature;
      Some (for_loop dofs_per_cell (fun i loc =>
              add_cell_rhs i
                (gamma * face_shape_value fe_heat cell f i q
                 * nottingham_heat * face_JxW fe_heat cell f q) loc) loc)) loc
  else Some loc.

Definition euler_implicit_cell (s : State) (cell : Cell Point)
    (loc : LocalSystem) : option LocalSystem :=
  for_faces 0 (faces cell) (euler_implicit_face s cell)
    (euler_implicit_volume s cell loc).

Definition assemble_heating_system_euler_implicit (s : State) : option State :=
  sys ← assemble_cells fe_heat (euler_implicit_cell s)
           (system_matrix_heat s, system_rhs_heat s);
  let boundary_values :=
    interpolate_boundary_values fe_heat copper_bottom ambient_temperature in
  let r := apply_boundary_values boundary_values sys.1 (solution_heat s) sys.2 in
  Some (with_heat_system r.1.1 r.2 r.1.2 s).

(** **** Solving *)

(** [SolverCG<>::solve(A, x, b, preconditioner)] under
    [SolverControl(max_iter, tol)].  The solver belongs to deal.II and is
    not part of this repository: what it computes, and whether a run ends by
    returning or by an exception, is the library's and is left to [solver_cg].
    The call iterates on [x] in place; the second component is
    [SolverControl::last_step()] when the call returns, the exception when it
    does not. *)
Definition SolverCG_solve (max_iter : Z) (tol : float) (A : Matrix) (x b : Vector)
    (preconditioner : Preconditioner) : Vector * (nat + Exception) :=
  let run := solver_cg max_iter tol preconditioner A x b in
  (final_iterate run,
   match raised run with
   | None => inl (last_step run)
   | Some e => inr e
   end).

(** Neither method has a handler: an exception of the call leaves it. *)
Definition solve_current (max_iter : Z) (tol : float) (pc_ssor : bool)
    (ssor_param : float) (s : State) : Outcome nat :=
  let s := with_old_solution_current (solution_current s) s in
  let preconditioner :=
    if pc_ssor then PreconditionSSOR (system_matrix_current s) ssor_param
    else PreconditionIdentity in
  let solved := SolverCG_solve max_iter tol (system_matrix_current s)
                  (solution_current s) (system_rhs_current s) preconditioner in
  let s := with_current_system (system_matrix_current s) (system_rhs_current s)
             solved.1 s in
  match solved.2 with
  | inl last_step => Returned last_step s
  | inr e => Thrown e s
  end.

Definition solve_heat (max_iter : Z) (tol : float) (pc_ssor : bool)
    (ssor_param : float) (s : State) : Outcome nat :=
  let s := with_old_solution_heat (solution_heat s) s in
  let preconditioner :=
    if pc_ssor then PreconditionSSOR (system_matrix_heat s) ssor_param
    else PreconditionIdentity in
  let solved := SolverCG_solve max_iter tol (system_matrix_heat s)
                  (solution_heat s) (system_rhs_heat s) preconditioner in
  let s := with_heat_system (system_matrix_heat s) (system_rhs_heat s)
             solved.1 s in
  match solved.2 with
  | inl last_step => Returned last_step s
  | inr e => Thrown e s
  end.

(** **** Setters of scalars and queries *)

Definition set_physical_quantities (pq_ : PhysicalQuantitiesObject) (s : State) : State :=
  with_pq pq_ s.

Definition set_timestep (time_step_ : float) (s : State) : State :=
  with_time_step time_step_ s.

(** [None] in the queries is an access outside a vector. *)
Definition get_temperature (cell_indexes vert_indexes : list nat) (s : State) :
    option (list float) :=
  for_loopM (length cell_indexes) (fun i temperatures =>
    c ← cell_indexes !! i;
    v ← vert_indexes !! i;
    temperature ← solution_heat s !! vertex_dof_index fe_heat c v;
    Some (<[i := temperature]> temperatures))
  (replicate (length cell_indexes) 1e15).

Definition get_current (cell_indexes vert_indexes : list nat) (s : State) :
    option (list Tensor) :=
  for_loopM (length cell_indexes) (fun i currents =>
    c ← cell_indexes !! i;
    v ← vert_indexes !! i;
    dof_cell ← mesh !! c;
    temperature ← solution_heat s !! vertex_dof_index fe_current c v;
    gradient ← (if (v <? n_q_points)%nat
                then Some (function_gradients fe_current dof_cell (solution_current s) v)
                else None);
    let field := tensor_scale (-1.0) gradient in
    let current := tensor_scale (pq_sigma (pq s) temperature) field in
    Some (<[i := current]> currents))
  (replicate (length cell_indexes) tensor_zero).

Definition get_max_temperature (s : State) : float :=
  linfty_norm (solution_heat s).

(** The calls a driver can make between two solves, other than the setup. *)
Inductive Call :=
  | CallAssembleCurrentSystem
  | CallAssembleHeatingSystemCrankNicolson
  | CallAssembleHeatingSystemEulerImplicit
  | CallSetPhysicalQuantities (pq_ : PhysicalQuantitiesObject)
  | CallSetTimestep (time_step_ : float)
  | CallSetElectricFieldBcLaplace (laplace : Laplace Point)
  | CallSetElectricFieldBcVector (e_fields : Vector)
  | CallSetElectricFieldBcUniform (uniform_efield : float)
  | CallSetEmissionBc (emission_currents nottingham_heats : Vector)
  | CallGetTemperature (cell_indexes vert_indexes : list nat)
  | CallGetCurrent (cell_indexes vert_indexes : list nat)
  | CallGetSurfaceNodes
  | CallGetMaxTemperature
  | CallGetEfieldBc (cop_cell_info : FaceInfo)
  | CallGetEmissionCurrentBc (cop_cell_info : FaceInfo) (temperature : float)
  | CallGetNottinghamHeatBc (cop_cell_info : FaceInfo) (temperature : float).

(** The members after a call; [None] when the call fails an [assert] or
    reads outside a vector. *)
Definition run (call : Call) (s : State) : option State :=
  match call with
  | CallAssembleCurrentSystem => assemble_current_system s
  | CallAssembleHeatingSystemCrankNicolson => assemble_heating_system_crank_nicolson s
  | CallAssembleHeatingSystemEulerImplicit => assemble_heating_system_euler_implicit s
  | CallSetPhysicalQuantities pq_ => Some (set_physical_quantities pq_ s)
  | CallSetTimestep time_step_ => Some (set_timestep time_step_ s)
  | CallSetElectricFieldBcLaplace laplace =>
      Some (set_electric_field_bc_laplace Point distance copper_surface mesh laplace s)
  | CallSetElectricFieldBcVector e_fields =>
      set_electric_field_bc_vector Point copper_surface mesh e_fields s
  | CallSetElectricFieldBcUniform uniform_efield =>
      Some (set_electric_field_bc_uniform uniform_efield s)
  | CallSetEmissionBc emission_currents nottingham_heats =>
      set_emission_bc Point copper_surface mesh emission_currents nottingham_heats s
  | CallGetTemperature cell_indexes vert_indexes =>
      _ ← get_temperature cell_indexes vert_indexes s; Some s
  | CallGetCurrent cell_indexes vert_indexes =>
      _ ← get_current cell_indexes vert_indexes s; Some s
  | CallGetSurfaceNodes =>
      let _ := get_surface_nodes Point copper_surface mesh in Some s
  | CallGetMaxTemperature => let _ := get_max_temperature s in Some s
  | CallGetEfieldBc cop_cell_info => _ ← get_efield_bc s cop_cell_info; Some s
  | CallGetEmissionCurrentBc cop_cell_info temperature =>
      _ ← get_emission_current_bc s cop_cell_info temperature; Some s
  | CallGetNottinghamHeatBc cop_cell_info temperature =>
      _ ← get_nottingham_heat_bc s cop_cell_info temperature; Some s
  end.

(** **** Loop invariants *)

Lemma fold_seq_ind {St : Type} (P : nat -> St -> Prop) (body : nat -> St -> St) :
  forall (m a : nat) (s : St),
    P a s ->
    (forall k st, (a <= k < a + m)%nat -> P k st -> P (S k) (body k st)) ->
    P (a + m)%nat (fold_left (fun s i => body i s) (seq a m) s).
Proof.
  induction m as [|m IH]; intros a s H0 Hstep; simpl.
  - rewrite Nat.add_0_r. exact H0.
  - replace (a + S m)%nat with (S a + m)%nat by lia. apply IH.
    + apply Hstep; [lia | exact H0].
    + intros k st Hk. apply Hstep. lia.
Qed.

Lemma for_loop_ind {St : Type} (P : nat -> St -> Prop) (n : nat)
    (body : nat -> St -> St) (s : St) :
  P 0%nat s ->
  (forall k st, (k < n)%nat -> P k st -> P (S k) (body k st)) ->
  P n (for_loop n body s).
Proof.
  intros H0 Hstep. unfold for_loop.
  apply (fold_seq_ind P body n 0 s H0). intros k st Hk. apply Hstep. lia.
Qed.

Lemma for_loopM_ind {St : Type} (P : nat -> St -> Prop) (n : nat)
    (body : nat -> St -> option St) (s : St) :
  P 0%nat s ->
  (forall k st, (k < n)%nat -> P k st ->
     exists st', body k st = Some st' /\ P (S k) st') ->
  exists s', for_loopM n body s = Some s' /\ P n s'.
Proof.
  intros H0 Hstep. unfold for_loopM.
  pose (Q := fun (k : nat) (acc : option St) =>
               exists st, acc = Some st /\ P k st).
  change (Q n (fold_left (fun acc i => (fun i acc => s0 ← acc; body i s0) i acc)
                 (seq 0 n) (Some s))).
  apply (fold_seq_ind Q (fun i acc => s0 ← acc; body i s0) n 0 (Some s)).
  - exists s. split; [reflexivity | exact H0].
  - intros k acc Hk (st & -> & Hst). simpl.
    destruct (Hstep k st ltac:(lia) Hst) as (st' & Hb & Hst').
    exists st'. split; assumption.
Qed.

(** **** The initial state *)

Lemma fill_loop (n : nat) (a b c : float) :
  for_loop (length (replicate n 0))
    (fun i (v : Vector * Vector * Vector) =>
       (<[i := a]> v.1.1, <[i := b]> v.1.2, <[i := c]> v.2))
    (replicate n 0, replicate n 0, replicate n 0)
  = (replicate n a, replicate n b, replicate n c).
Proof.
  rewrite length_replicate.
  pose (P := fun (k : nat) (v : Vector * Vector * Vector) =>
               (length v.1.1 = n /\ length v.1.2 = n /\ length v.2 = n) /\
               forall i, (i < k)%nat ->
                 v.1.1 !! i = Some a /\ v.1.2 !! i = Some b /\ v.2 !! i = Some c).
  assert (H : P n (for_loop n
              (fun i (v : Vector * Vector * Vector) =>
                 (<[i := a]> v.1.1, <[i := b]> v.1.2, <[i := c]> v.2))
              (replicate n 0, replicate n 0, replicate n 0))).
  { apply for_loop_ind; unfold P.
    - split; [simpl; rewrite !length_replicate; auto | intros i Hi; lia].
    - intros k [[v1 v2] v3] Hk [(L1 & L2 & L3) Hv]. cbn [fst snd] in *.
      split; [rewrite !length_insert; auto|].
      intros i Hi. destruct (decide (i = k)) as [->|Hne].
      + rewrite !list_lookup_insert_eq by lia. auto.
      + rewrite !list_lookup_insert_ne by lia. apply Hv. lia. }
  unfold P in H.
  destruct (for_loop n _ _) as [[v1 v2] v3]. destruct H as [(L1 & L2 & L3) Hv].
  cbn [fst snd] in *.
  assert (Heq : forall (v : Vector) (x : float),
            length v = n -> (forall i, (i < n)%nat -> v !! i = Some x) ->
            v = replicate n x).
  { intros v x Hl Hx. apply list_eq. intros i.
    destruct (decide (i < n)%nat) as [Hi|Hi].
    - rewrite (Hx i Hi), lookup_replicate_2; auto.
    - rewrite !lookup_ge_None_2; auto; rewrite ?length_replicate; lia. }
  f_equal; [f_equal|]; apply Heq; auto; intros i Hi; apply (Hv i Hi).
Qed.

(** C10.  After [setup_heating_system] the temperature solution and its
    previous-step copy have one entry per degree of freedom, each equal to
    the ambient temperature 300; after [setup_current_system] the potential
    solution and its previous-step copy are zero in every entry; after both,
    all four hold together. *)
Theorem setup_initial_state (s : State) :
  ambient_temperature = 300 /\
  solution_heat (setup_heating_system s) = replicate (n_dofs fe_heat) 300 /\
  old_solution_heat (setup_heating_system s) = replicate (n_dofs fe_heat) 300 /\
  solution_current (setup_current_system s) = replicate (n_dofs fe_current) 0 /\
  old_solution_current (setup_current_system s) = replicate (n_dofs fe_current) 0 /\
  (let s' := setup_heating_system (setup_current_system s) in
   forall i x,
     (solution_heat s' !! i = Some x \/ old_solution_heat s' !! i = Some x -> x = 300) /\
     (solution_current s' !! i = Some x \/ old_solution_current s' !! i = Some x ->
      x = 0)).
Proof.
  assert (Hh : forall s0,
            solution_heat (setup_heating_system s0) = replicate (n_dofs fe_heat) 300 /\
            old_solution_heat (setup_heating_system s0) = replicate (n_dofs fe_heat) 300).
  { intros s0. unfold setup_heating_system.
    rewrite (fill_loop (n_dofs fe_heat) ambient_temperature ambient_temperature 1000).
    split; reflexivity. }
  assert (Hc : solution_current (setup_current_system s) = replicate (n_dofs fe_current) 0 /\
               old_solution_current (setup_current_system s) = replicate (n_dofs fe_current) 0).
  { unfold setup_current_system.
    assert (Hpair :
      for_loop (length (replicate (n_dofs fe_current) 0))
        (fun i (v : Vector * Vector) => (<[i := 0]> v.1, <[i := 0]> v.2))
        (replicate (n_dofs fe_current) 0, replicate (n_dofs fe_current) 0)
      = (replicate (n_dofs fe_current) 0, replicate (n_dofs fe_current) 0)).
    { rewrite length_replicate.
      apply (for_loop_ind
               (fun (_ : nat) (v : Vector * Vector) =>
                  v = (replicate (n_dofs fe_current) 0,
                       replicate (n_dofs fe_current) 0))); [reflexivity|].
      intros k st Hk ->. cbn [fst snd].
      rewrite !list_insert_id; try reflexivity;
        apply lookup_replicate_2; exact Hk. }
    rewrite Hpair. split; reflexivity. }
  split; [reflexivity|].
  split; [apply Hh|]. split; [apply Hh|].
  split; [apply Hc|]. split; [apply Hc|].
  intros s' i x. split.
  - unfold s'. destruct (Hh (setup_current_system s)) as [-> ->].
    intros [H|H]; apply lookup_replicate_1 in H; tauto.
  - assert (Hkeep : solution_current s' = solution_current (setup_current_system s) /\
                    old_solution_current s' = old_solution_current (setup_current_system s))
      by (split; reflexivity).
    destruct Hkeep as [-> ->]. destruct Hc as [-> ->].
    intros [H|H]; apply lookup_replicate_1 in H; tauto.
Qed.

(** **** The previous solutions *)

(** C9.  [solve_current] leaves in [old_solution_current] the potential it
    was called with, whatever the solver then does, being the same as the
    rest of the method run after that copy; likewise [solve_heat] with the
    temperature; and no assembly, setter of boundary data or parameters, or
    query changes either previous-solution vector. *)
Theorem previous_solution_frame :
  (forall max_iter tol pc_ssor ssor_param s,
     let r := solve_current max_iter tol pc_ssor ssor_param s in
     old_solution_current (final_state r) = solution_current s /\
     old_solution_heat (final_state r) = old_solution_heat s /\
     r = solve_current max_iter tol pc_ssor ssor_param
           (with_old_solution_current (solution_current s) s)) /\
  (forall max_iter tol pc_ssor ssor_param s,
     let r := solve_heat max_iter tol pc_ssor ssor_param s in
     old_solution_heat (final_state r) = solution_heat s /\
     old_solution_current (final_state r) = old_solution_current s /\
     r = solve_heat max_iter tol pc_ssor ssor_param
           (with_old_solution_heat (solution_heat s) s)) /\
  (forall call s s',
     run call s = Some s' ->
     old_solution_current s' = old_solution_current s /\
     old_solution_heat s' = old_solution_heat s).
Proof.
  split; [|split].
  - intros max_iter tol pc_ssor ssor_param s r.
    unfold r, solve_current, SolverCG_solve. cbv zeta. simpl.
    destruct (raised _); simpl; repeat split; reflexivity.
  - intros max_iter tol pc_ssor ssor_param s r.
    unfold r, solve_heat, SolverCG_solve. cbv zeta. simpl.
    destruct (raised _); simpl; repeat split; reflexivity.
  - intros call s s' Hrun. destruct call; simpl in Hrun.
    + unfold assemble_current_system in Hrun.
      destruct (assemble_cells _ _ _) as [sys|]; [|discriminate].
      injection Hrun as <-. split; reflexivity.
    + unfold assemble_heating_system_crank_nicolson in Hrun.
      destruct (assemble_cells _ _ _) as [sys|]; [|discriminate].
      injection Hrun as <-. split; reflexivity.
    + unfold assemble_heating_system_euler_implicit in Hrun.
      destruct (assemble_cells _ _ _) as [sys|]; [|discriminate].
      injection Hrun as <-. split; reflexivity.
    + injection Hrun as <-. split; reflexivity.
    + injection Hrun as <-. split; reflexivity.
    + injection Hrun as <-. split; reflexivity.
    + unfold set_electric_field_bc_vector in Hrun.
      destruct (fold_left _ _ _) as [[m k]|]; [|discriminate].
      injection Hrun as <-. split; reflexivity.
    + injection Hrun as <-. split; reflexivity.
    + unfold set_emission_bc in Hrun.
      destruct (fold_left _ _ _) as [[[me mn] k]|]; [|discriminate].
      injection Hrun as <-. split; reflexivity.
    + destruct (get_temperature _ _ _); [|discriminate].
      injection Hrun as <-. split; reflexivity.
    + destruct (get_current _ _ _); [|discriminate].
      injection Hrun as <-. split; reflexivity.
    + injection Hrun as <-. split; reflexivity.
    + injection Hrun as <-. split; reflexivity.
    + destruct (get_efield_bc _ _); [|discriminate].
      injection Hrun as <-. split; reflexivity.
    + destruct (get_emission_current_bc _ _ _); [|discriminate].
      injection Hrun as <-. split; reflexivity.
    + destruct (get_nottingham_heat_bc _ _ _); [|discriminate].
      injection Hrun as <-. split; reflexivity.
Qed.

(** **** The local systems of the heat assemblers *)

(** Accumulation in the order of the loop: [init + f x1 + f x2 + ...]. *)
Definition float_sum {A : Type} (terms : list A) (f : A -> float) (init : float) : float :=
  fold_left (fun acc x => acc + f x) terms init.

Lemma float_sum_snoc {A : Type} (terms : list A) (x : A) (f : A -> float) (init : float) :
  float_sum (terms ++ [x]) f init = float_sum terms f init + f x.
Proof. unfold float_sum. rewrite fold_left_app. reflexivity. Qed.

Lemma float_sum_app {A : Type} (l1 l2 : list A) (f : A -> float) (init : float) :
  float_sum (l1 ++ l2) f init = float_sum l2 f (float_sum l1 f init).
Proof. unfold float_sum. apply fold_left_app. Qed.

(** The shape shared by the volume loops: over the quadrature points, over
    the rows, a pass over the columns, then the row's right-hand side, then
    the diagnostic maximum. *)
Definition volume_nest (a : nat -> nat -> nat -> float) (b : nat -> nat -> float)
    (h : nat -> float) (loc : LocalSystem) : LocalSystem :=
  for_loop n_q_points (fun q loc =>
    for_loop dofs_per_cell (fun i loc =>
      let loc := for_loop dofs_per_cell (fun j loc =>
                   add_cell_matrix i j (a q i j) loc) loc in
      let loc := add_cell_rhs i (b q i) loc in
      raise_max_heating_power (h q) loc) loc) loc.

Lemma column_loop_spec (a : nat -> float) (i : nat) (loc : LocalSystem) :
  let loc' := for_loop dofs_per_cell (fun j loc => add_cell_matrix i j (a j) loc) loc in
  cell_rhs loc' = cell_rhs loc /\
  (forall i' j', cell_matrix loc' i' j' =
     if (i' =? i)%nat && (j' <? dofs_per_cell)%nat
     then cell_matrix loc i' j' + a j' else cell_matrix loc i' j').
Proof.
  apply (for_loop_ind
           (fun k loc' =>
              cell_rhs loc' = cell_rhs loc /\
              forall i' j', cell_matrix loc' i' j' =
                if (i' =? i)%nat && (j' <? k)%nat
                then cell_matrix loc i' j' + a j' else cell_matrix loc i' j')).
  - split; [reflexivity|]. intros i' j'. rewrite andb_false_r. reflexivity.
  - intros k st Hk [Hr Hm]. split; [exact Hr|].
    intros i' j'. simpl. unfold mat_add. rewrite Hm.
    destruct (i' =? i)%nat; simpl; [|reflexivity].
    destruct (Nat.eqb_spec j' k) as [->|Hne].
    + rewrite (proj2 (Nat.ltb_ge k k)) by lia.
      rewrite (proj2 (Nat.ltb_lt k (S k))) by lia. reflexivity.
    + destruct (Nat.ltb_spec j' k) as [Hlt|Hge].
      * rewrite (proj2 (Nat.ltb_lt j' (S k))) by lia. reflexivity.
      * rewrite (proj2 (Nat.ltb_ge j' (S k))) by lia. reflexivity.
Qed.

Lemma row_loop_spec (a : nat -> nat -> float) (b : nat -> float) (h : float)
    (loc : LocalSystem) :
  let loc' :=
    for_loop dofs_per_cell (fun i loc =>
      let loc := for_loop dofs_per_cell (fun j loc =>
                   add_cell_matrix i j (a i j) loc) loc in
      let loc := add_cell_rhs i (b i) loc in
      raise_max_heating_power h loc) loc in
  (forall i j, cell_matrix loc' i j =
     if (i <? dofs_per_cell)%nat && (j <? dofs_per_cell)%nat
     then cell_matrix loc i j + a i j else cell_matrix loc i j) /\
  (forall i, cell_rhs loc' i =
     if (i <? dofs_per_cell)%nat then cell_rhs loc i + b i else cell_rhs loc i).
Proof.
  apply (for_loop_ind
           (fun k loc' =>
              (forall i j, cell_matrix loc' i j =
                 if (i <? k)%nat && (j <? dofs_per_cell)%nat
                 then cell_matrix loc i j + a i j else cell_matrix loc i j) /\
              (forall i, cell_rhs loc' i =
                 if (i <? k)%nat then cell_rhs loc i + b i else cell_rhs loc i))).
  - split; intros; reflexivity.
  - intros k st Hk [Hm Hr].
    destruct (column_loop_spec (a k) k st) as [Hr' Hm'].
    cbv zeta in Hr', Hm'. cbv zeta. simpl. split.
    + intros i j. rewrite Hm', Hm.
      destruct (Nat.eqb_spec i k) as [->|Hne]; simpl.
      * rewrite (proj2 (Nat.ltb_ge k k)) by lia.
        rewrite (proj2 (Nat.ltb_lt k (S k))) by lia. reflexivity.
      * destruct (Nat.ltb_spec i k) as [Hlt|Hge].
        -- rewrite (proj2 (Nat.ltb_lt i (S k))) by lia. reflexivity.
        -- rewrite (proj2 (Nat.ltb_ge i (S k))) by lia. reflexivity.
    + intros i. unfold vec_add. rewrite Hr', Hr.
      destruct (Nat.eqb_spec i k) as [->|Hne].
      * rewrite (proj2 (Nat.ltb_ge k k)) by lia.
        rewrite (proj2 (Nat.ltb_lt k (S k))) by lia. reflexivity.
      * destruct (Nat.ltb_spec i k) as [Hlt|Hge].
        -- rewrite (proj2 (Nat.ltb_lt i (S k))) by lia. reflexivity.
        -- rewrite (proj2 (Nat.ltb_ge i (S k))) by lia. reflexivity.
Qed.

Lemma volume_nest_spec (a : nat -> nat -> nat -> float) (b : nat -> nat -> float)
    (h : nat -> float) (loc : LocalSystem) (i : nat) :
  (i < dofs_per_cell)%nat ->
  (forall j, (j < dofs_per_cell)%nat ->
     cell_matrix (volume_nest a b h loc) i j =
       float_sum (seq 0 n_q_points) (fun q => a q i j) (cell_matrix loc i j)) /\
  cell_rhs (volume_nest a b h loc) i =
    float_sum (seq 0 n_q_points) (fun q => b q i) (cell_rhs loc i).
Proof.
  intros Hi. unfold volume_nest.
  apply (for_loop_ind
           (fun k loc' =>
              (forall j, (j < dofs_per_cell)%nat ->
                 cell_matrix loc' i j =
                   float_sum (seq 0 k) (fun q => a q i j) (cell_matrix loc i j)) /\
              cell_rhs loc' i =
                float_sum (seq 0 k) (fun q => b q i) (cell_rhs loc i))).
  - split; intros; reflexivity.
  - intros k st Hk [Hm Hr].
    destruct (row_loop_spec (a k) (b k) (h k) st) as [Hm' Hr'].
    cbv zeta in Hm', Hr'. rewrite seq_S. simpl. split.
    + intros j Hj. rewrite Hm', float_sum_snoc, (Hm j Hj).
      rewrite (proj2 (Nat.ltb_lt i dofs_per_cell)) by lia.
      rewrite (proj2 (Nat.ltb_lt j dofs_per_cell)) by lia. reflexivity.
    + rewrite Hr', float_sum_snoc, Hr.
      rewrite (proj2 (Nat.ltb_lt i dofs_per_cell)) by lia. reflexivity.
Qed.

(** The faces a face loop enters, by number, and the (face, quadrature point)
    pairs it visits, in order. *)
Fixpoint surface_faces_from (f : nat) (fs : list (Face Point)) : list nat :=
  match fs with
  | [] => []
  | face :: rest =>
      if on_copper_surface face then f :: surface_faces_from (S f) rest
      else surface_faces_from (S f) rest
  end.

Definition face_points (f : nat) : list (nat * nat) :=
  map (fun q => (f, q)) (seq 0 n_face_q_points).

Definition surface_points (cell : Cell Point) : list (nat * nat) :=
  flat_map face_points (surface_faces_from 0 (faces cell)).

(** The shape shared by the face loops: a boundary value [g f q] that may
    fail, then one addition per row. *)
Definition face_nest (g : nat -> nat -> option float)
    (c : nat -> nat -> nat -> float -> float) (f : nat) (face : Face Point)
    (loc : LocalSystem) : option LocalSystem :=
  if on_copper_surface face then
    for_loopM n_face_q_points (fun q loc =>
      v ← g f q;
      Some (for_loop dofs_per_cell (fun i loc => add_cell_rhs i (c f q i v) loc) loc))
    loc
  else Some loc.

Lemma rhs_loop_spec (c : nat -> float) (loc : LocalSystem) :
  let loc' := for_loop dofs_per_cell (fun i loc => add_cell_rhs i (c i) loc) loc in
  cell_matrix loc' = cell_matrix loc /\
  (forall i, cell_rhs loc' i =
     if (i <? dofs_per_cell)%nat then cell_rhs loc i + c i else cell_rhs loc i).
Proof.
  apply (for_loop_ind
           (fun k loc' =>
              cell_matrix loc' = cell_matrix loc /\
              forall i, cell_rhs loc' i =
                if (i <? k)%nat then cell_rhs loc i + c i else cell_rhs loc i)).
  - split; intros; reflexivity.
  - intros k st Hk [Hm Hr]. split; [exact Hm|].
    intros i. simpl. unfold vec_add. rewrite Hr.
    destruct (Nat.eqb_spec i k) as [->|Hne].
    + rewrite (proj2 (Nat.ltb_ge k k)) by lia.
      rewrite (proj2 (Nat.ltb_lt k (S k))) by lia. reflexivity.
    + destruct (Nat.ltb_spec i k) as [Hlt|Hge].
      * rewrite (proj2 (Nat.ltb_lt i (S k))) by lia. reflexivity.
      * rewrite (proj2 (Nat.ltb_ge i (S k))) by lia. reflexivity.
Qed.

Lemma face_nest_spec (g : nat -> nat -> option float)
    (c : nat -> nat -> nat -> float -> float) (nh : nat -> nat -> float)
    (f : nat) (face : Face Point) (loc : LocalSystem) :
  (on_copper_surface face = true ->
   forall q, (q < n_face_q_points)%nat -> g f q = Some (nh f q)) ->
  exists loc',
    face_nest g c f face loc = Some loc' /\
    cell_matrix loc' = cell_matrix loc /\
    forall i, (i < dofs_per_cell)%nat ->
      cell_rhs loc' i =
        float_sum (if on_copper_surface face then face_points f else [])
          (fun fq => c fq.1 fq.2 i (nh fq.1 fq.2)) (cell_rhs loc i).
Proof.
  intros Hg. unfold face_nest. destruct (on_copper_surface face) eqn:Hon.
  - specialize (Hg eq_refl). unfold face_points.
    apply (for_loopM_ind
             (fun k loc' =>
                cell_matrix loc' = cell_matrix loc /\
                forall i, (i < dofs_per_cell)%nat ->
                  cell_rhs loc' i =
                    float_sum (map (fun q => (f, q)) (seq 0 k))
                      (fun fq => c fq.1 fq.2 i (nh fq.1 fq.2)) (cell_rhs loc i))).
    + split; intros; reflexivity.
    + intros k st Hk [Hm Hr]. rewrite (Hg k Hk). eexists.
      split; [reflexivity|].
      destruct (rhs_loop_spec (fun i => c f k i (nh f k)) st) as [Hm' Hr'].
      cbv zeta in Hm', Hr'. split; [congruence|].
      intros i Hi. rewrite Hr', seq_S, map_app. cbn [map].
      rewrite float_sum_snoc, (Hr i Hi).
      rewrite (proj2 (Nat.ltb_lt i dofs_per_cell)) by lia. reflexivity.
  - exists loc. repeat split; reflexivity.
Qed.

Lemma for_faces_spec (g : nat -> nat -> option float)
    (c : nat -> nat -> nat -> float -> float) (nh : nat -> nat -> float)
    (fs : list (Face Point)) :
  forall (f0 : nat) (loc : LocalSystem),
    (forall k face q, fs !! k = Some face -> on_copper_surface face = true ->
       (q < n_face_q_points)%nat -> g (f0 + k)%nat q = Some (nh (f0 + k)%nat q)) ->
    exists loc',
      for_faces f0 fs (face_nest g c) loc = Some loc' /\
      cell_matrix loc' = cell_matrix loc /\
      forall i, (i < dofs_per_cell)%nat ->
        cell_rhs loc' i =
          float_sum (flat_map face_points (surface_faces_from f0 fs))
            (fun fq => c fq.1 fq.2 i (nh fq.1 fq.2)) (cell_rhs loc i).
Proof.
  induction fs as [|face rest IH]; intros f0 loc Hg.
  - exists loc. repeat split; reflexivity.
  - destruct (face_nest_spec g c nh f0 face loc) as (loc1 & H1 & Hm1 & Hr1).
    { intros Hon q Hq. specialize (Hg 0%nat face q eq_refl Hon Hq).
      rewrite Nat.add_0_r in Hg. exact Hg. }
    destruct (IH (S f0) loc1) as (loc2 & H2 & Hm2 & Hr2).
    { intros k face' q Hk Hon Hq.
      specialize (Hg (S k) face' q Hk Hon Hq).
      replace (f0 + S k)%nat with (S f0 + k)%nat in Hg by lia. exact Hg. }
    exists loc2. cbn [for_faces]. rewrite H1. simpl. rewrite H2.
    split; [reflexivity|]. split; [congruence|].
    intros i Hi. rewrite (Hr2 i Hi), (Hr1 i Hi). cbn [surface_faces_from].
    destruct (on_copper_surface face); [|reflexivity].
    cbn [flat_map]. rewrite float_sum_app. reflexivity.
Qed.

(** C2.  On a cell whose Nottingham boundary values are available, the local
    matrix of the Crank-Nicolson assembler accumulates, over the quadrature
    points, the mass term plus [const_k * kappa(T_old)] times the stiffness
    term, with [const_k = time_step / (2 * cu_rho_cp)]; its local right-hand
    side accumulates the mass term applied to [T_old], plus the Joule term
    [const_k * N_i * sigma(T_old) * (|grad phi|^2 + |grad phi_old|^2)], minus
    the diffusion term [const_k * kappa(T_old) * grad N_i . grad T_old], and
    then, over the interface faces, the Nottingham flux with the weight
    [const_k * 2]; the implicit Euler assembler uses the single weight
    [gamma = time_step / cu_rho_cp] throughout, only the current potential
    gradient, and no diffusion term on the right. *)
Theorem crank_nicolson_local_system (s : State) (cell : Cell Point)
    (loc : LocalSystem) (nottingham_heat : nat -> nat -> float) :
  (forall f face q,
     faces cell !! f = Some face -> on_copper_surface face = true ->
     (q < n_face_q_points)%nat ->
     get_nottingham_heat_bc s (index cell, f)
       (face_function_values fe_heat cell f (old_solution_heat s) q)
     = Some (nottingham_heat f q)) ->
  let const_k := time_step s / (2.0 * cu_rho_cp) in
  let gamma := time_step s / cu_rho_cp in
  let N := shape_value fe_heat cell in
  let dN := shape_grad fe_heat cell in
  let w := JxW fe_heat cell in
  let Nf := face_shape_value fe_heat cell in
  let wf := face_JxW fe_heat cell in
  let T_old := function_values fe_heat cell (old_solution_heat s) in
  let grad_T_old := function_gradients fe_heat cell (old_solution_heat s) in
  let kappa q := pq_kappa (pq s) (T_old q) in
  let sigma q := pq_sigma (pq s) (T_old q) in
  let grad_phi_sq q :=
    norm_square (function_gradients fe_current cell (solution_current s) q) in
  let grad_phi_old_sq q :=
    norm_square (function_gradients fe_current cell (old_solution_current s) q) in
  exists cn eu : LocalSystem,
    crank_nicolson_cell s cell (clear_cell loc) = Some cn /\
    euler_implicit_cell s cell (clear_cell loc) = Some eu /\
    forall i, (i < dofs_per_cell)%nat ->
      (forall j, (j < dofs_per_cell)%nat ->
         cell_matrix cn i j =
           float_sum (seq 0 n_q_points)
             (fun q => (N i q * N j q
                        + tensor_dot (tensor_scale (const_k * kappa q) (dN i q)) (dN j q))
                       * w q) 0 /\
         cell_matrix eu i j =
           float_sum (seq 0 n_q_points)
             (fun q => (N i q * N j q
                        + tensor_dot (tensor_scale (gamma * kappa q) (dN i q)) (dN j q))
                       * w q) 0) /\
      cell_rhs cn i =
        float_sum (surface_points cell)
          (fun fq => const_k * Nf fq.1 i fq.2 * 2.0 * nottingham_heat fq.1 fq.2
                     * wf fq.1 fq.2)
          (float_sum (seq 0 n_q_points)
             (fun q => (N i q * T_old q
                        + const_k * N i q * sigma q
                          * (grad_phi_sq q + grad_phi_old_sq q)
                        - tensor_dot (tensor_scale (const_k * kappa q) (dN i q))
                                     (grad_T_old q))
                       * w q) 0) /\
      cell_rhs eu i =
        float_sum (surface_points cell)
          (fun fq => gamma * Nf fq.1 i fq.2 * nottingham_heat fq.1 fq.2 * wf fq.1 fq.2)
          (float_sum (seq 0 n_q_points)
             (fun q => (N i q * T_old q + gamma * N i q * sigma q * grad_phi_sq q)
                       * w q) 0).
Proof.
  intros Hnh const_k gamma N dN w Nf wf T_old grad_T_old kappa sigma
         grad_phi_sq grad_phi_old_sq.
  set (g := fun f q => get_nottingham_heat_bc s (index cell, f)
                         (face_function_values fe_heat cell f (old_solution_heat s) q)).
  set (a_cn := fun q i j =>
         (N i q * N j q
          + tensor_dot (tensor_scale (const_k * kappa q) (dN i q)) (dN j q)) * w q).
  set (b_cn := fun q i =>
         (N i q * T_old q
          + const_k * N i q * sigma q * (grad_phi_sq q + grad_phi_old_sq q)
          - tensor_dot (tensor_scale (const_k * kappa q) (dN i q)) (grad_T_old q))
         * w q).
  set (h_cn := fun q => 1 / 2.0 * sigma q * (grad_phi_sq q + grad_phi_old_sq q)).
  set (c_cn := fun f q i v => const_k * Nf f i q * 2.0 * v * wf f q).
  set (a_eu := fun q i j =>
         (N i q * N j q
          + tensor_dot (tensor_scale (gamma * kappa q) (dN i q)) (dN j q)) * w q).
  set (b_eu := fun q i =>
         (N i q * T_old q + gamma * N i q * sigma q * grad_phi_sq q) * w q).
  set (h_eu := fun q => sigma q * grad_phi_sq q).
  set (c_eu := fun f q i v => gamma * Nf f i q * v * wf f q).
  assert (Hg : forall k face q, faces cell !! k = Some face ->
            on_copper_surface face = true -> (q < n_face_q_points)%nat ->
            g (0 + k)%nat q = Some (nottingham_heat (0 + k)%nat q)).
  { intros k face q Hk Hon Hq. apply (Hnh k face q Hk Hon Hq). }
  destruct (for_faces_spec g c_cn nottingham_heat (faces cell) 0
              (volume_nest a_cn b_cn h_cn (clear_cell loc)) Hg)
    as (cn & Hcn & Hmcn & Hrcn).
  destruct (for_faces_spec g c_eu nottingham_heat (faces cell) 0
              (volume_nest a_eu b_eu h_eu (clear_cell loc)) Hg)
    as (eu & Heu & Hmeu & Hreu).
  exists cn, eu.
  split; [exact Hcn|]. split; [exact Heu|].
  intros i Hi.
  destruct (volume_nest_spec a_cn b_cn h_cn (clear_cell loc) i Hi) as [Hvm Hvr].
  destruct (volume_nest_spec a_eu b_eu h_eu (clear_cell loc) i Hi) as [Hwm Hwr].
  split; [|split].
  - intros j Hj. rewrite Hmcn, Hmeu, (Hvm j Hj), (Hwm j Hj). split; reflexivity.
  - rewrite (Hrcn i Hi), Hvr. reflexivity.
  - rewrite (Hreu i Hi), Hwr. reflexivity.
Qed.

(** **** Further properties of the assemblers and queries *)

Lemma matrix_rows_spec (a : nat -> nat -> float) (loc : LocalSystem) :
  let loc' :=
    for_loop dofs_per_cell (fun i loc =>
      for_loop dofs_per_cell (fun j loc => add_cell_matrix i j (a i j) loc) loc) loc in
  cell_rhs loc' = cell_rhs loc /\
  (forall i j, cell_matrix loc' i j =
     if (i <? dofs_per_cell)%nat && (j <? dofs_per_cell)%nat
     then cell_matrix loc i j + a i j else cell_matrix loc i j).
Proof.
  apply (for_loop_ind
           (fun k loc' =>
              cell_rhs loc' = cell_rhs loc /\
              forall i j, cell_matrix loc' i j =
                if (i <? k)%nat && (j <? dofs_per_cell)%nat
                then cell_matrix loc i j + a i j else cell_matrix loc i j)).
  - split; intros; reflexivity.
  - intros k st Hk [Hr Hm].
    destruct (column_loop_spec (a k) k st) as [Hr' Hm'].
    cbv zeta in Hr', Hm'. split; [congruence|].
    intros i j. rewrite Hm', Hm.
    destruct (Nat.eqb_spec i k) as [->|Hne]; simpl.
    + rewrite (proj2 (Nat.ltb_ge k k)) by lia.
      rewrite (proj2 (Nat.ltb_lt k (S k))) by lia. reflexivity.
    + destruct (Nat.ltb_spec i k) as [Hlt|Hge].
      * rewrite (proj2 (Nat.ltb_lt i (S k))) by lia. reflexivity.
      * rewrite (proj2 (Nat.ltb_ge i (S k))) by lia. reflexivity.
Qed.

Lemma matrix_nest_spec (a : nat -> nat -> nat -> float) (loc : LocalSystem) :
  let loc' :=
    for_loop n_q_points (fun q loc =>
      for_loop dofs_per_cell (fun i loc =>
        for_loop dofs_per_cell (fun j loc =>
          add_cell_matrix i j (a q i j) loc) loc) loc) loc in
  cell_rhs loc' = cell_rhs loc /\
  (forall i j, (i < dofs_per_cell)%nat -> (j < dofs_per_cell)%nat ->
     cell_matrix loc' i j =
       float_sum (seq 0 n_q_points) (fun q => a q i j) (cell_matrix loc i j)).
Proof.
  apply (for_loop_ind
           (fun k loc' =>
              cell_rhs loc' = cell_rhs loc /\
              forall i j, (i < dofs_per_cell)%nat -> (j < dofs_per_cell)%nat ->
                cell_matrix loc' i j =
                  float_sum (seq 0 k) (fun q => a q i j) (cell_matrix loc i j))).
  - split; intros; reflexivity.
  - intros k st Hk [Hr Hm].
    destruct (matrix_rows_spec (a k) st) as [Hr' Hm'].
    cbv zeta in Hr', Hm'. split; [congruence|].
    intros i j Hi Hj. rewrite Hm', seq_S. cbn [Nat.add].
    rewrite float_sum_snoc, (Hm i j Hi Hj).
    rewrite (proj2 (Nat.ltb_lt i dofs_per_cell)) by lia.
    rewrite (proj2 (Nat.ltb_lt j dofs_per_cell)) by lia. reflexivity.
Qed.

(** X9.  On a cell whose emission currents are available, the local system
    of [assemble_current_system] is: in the matrix, the sum over the
    quadrature points of [grad N_i . grad N_j * sigma(T) * JxW] with the
    conductivity taken at the current temperature [solution_heat]; on the
    right, the sum over the quadrature points of the interface faces of
    [N_i * emission_current * JxW], and nothing from the volume. *)
Theorem current_local_system (s : State) (cell : Cell Point) (loc : LocalSystem)
    (emission_current : nat -> nat -> float) :
  (forall f face q,
     faces cell !! f = Some face -> on_copper_surface face = true ->
     (q < n_face_q_points)%nat ->
     get_emission_current_bc s (index cell, f)
       (face_function_values fe_heat cell f (solution_heat s) q)
     = Some (emission_current f q)) ->
  exists loc',
    for_faces 0 (faces cell) (current_face s cell)
      (current_volume s cell (clear_cell loc)) = Some loc' /\
    forall i, (i < dofs_per_cell)%nat ->
      (forall j, (j < dofs_per_cell)%nat ->
         cell_matrix loc' i j =
           float_sum (seq 0 n_q_points)
             (fun q =>
                tensor_dot (shape_grad fe_current cell i q) (shape_grad fe_current cell j q)
                * pq_sigma (pq s) (function_values fe_heat cell (solution_heat s) q)
                * JxW fe_current cell q) 0) /\
      cell_rhs loc' i =
        float_sum (surface_points cell)
          (fun fq => face_shape_value fe_current cell fq.1 i fq.2
                     * emission_current fq.1 fq.2
                     * face_JxW fe_current cell fq.1 fq.2) 0.
Proof.
  intros He.
  set (g := fun f q => get_emission_current_bc s (index cell, f)
                         (face_function_values fe_heat cell f (solution_heat s) q)).
  set (c := fun f q i v => face_shape_value fe_current cell f i q * v
                           * face_JxW fe_current cell f q).
  set (a := fun q i j =>
         tensor_dot (shape_grad fe_current cell i q) (shape_grad fe_current cell j q)
         * pq_sigma (pq s) (function_values fe_heat cell (solution_heat s) q)
         * JxW fe_current cell q).
  destruct (for_faces_spec g c emission_current (faces cell) 0
              (current_volume s cell (clear_cell loc)))
    as (loc' & Hloc & Hm & Hr).
  { intros k face q Hk Hon Hq. apply (He k face q Hk Hon Hq). }
  exists loc'. split; [exact Hloc|].
  destruct (matrix_nest_spec a (clear_cell loc)) as [Hvr Hvm].
  cbv zeta in Hvr, Hvm.
  intros i Hi. split.
  - intros j Hj. rewrite Hm. apply (Hvm i j Hi Hj).
  - assert (Hv0 : cell_rhs (current_volume s cell (clear_cell loc))
                  = cell_rhs (clear_cell loc)) by exact Hvr.
    rewrite (Hr i Hi), Hv0. reflexivity.
Qed.

Lemma scatter_row_spec (ldi : nat -> nat) (row : nat) (c : nat -> float)
    (sys : Matrix * Vector) :
  (forall i j, (i < dofs_per_cell)%nat -> (j < dofs_per_cell)%nat ->
     ldi i = ldi j -> i = j) ->
  let sys' := for_loop dofs_per_cell (fun j (sys : Matrix * Vector) =>
                (mat_add sys.1 row (ldi j) (c j), sys.2)) sys in
  sys'.2 = sys.2 /\
  (forall j, (j < dofs_per_cell)%nat ->
     sys'.1 row (ldi j) = sys.1 row (ldi j) + c j) /\
  (forall A B, (forall j, (j < dofs_per_cell)%nat -> ~ (A = row /\ B = ldi j)) ->
     sys'.1 A B = sys.1 A B).
Proof.
  intros Hinj.
  apply (for_loop_ind
           (fun k (sys' : Matrix * Vector) =>
              sys'.2 = sys.2 /\
              (forall j, (j < k)%nat -> sys'.1 row (ldi j) = sys.1 row (ldi j) + c j) /\
              (forall A B, (forall j, (j < k)%nat -> ~ (A = row /\ B = ldi j)) ->
                 sys'.1 A B = sys.1 A B))).
  - split; [reflexivity|]. split; [intros j Hj; lia | reflexivity].
  - intros k st Hk (H2 & Hdone & Hrest). cbn [fst snd].
    split; [exact H2|]. split.
    + intros j Hj. unfold mat_add. rewrite Nat.eqb_refl. simpl.
      destruct (Nat.eqb_spec (ldi j) (ldi k)) as [Heq|Hne].
      * assert (j = k) by (apply Hinj; auto with lia). subst j.
        rewrite Hrest; [reflexivity|].
        intros j' Hj' [_ Hc]. apply Hinj in Hc; lia.
      * apply Hdone. destruct (decide (j = k)) as [->|]; [congruence | lia].
    + intros A B Hno. unfold mat_add.
      destruct (Nat.eqb_spec A row) as [->|HA]; simpl.
      * destruct (Nat.eqb_spec B (ldi k)) as [->|HB].
        -- exfalso. apply (Hno k); [lia | split; reflexivity].
        -- apply Hrest. intros j Hj. apply Hno. lia.
      * apply Hrest. intros j Hj. apply Hno. lia.
Qed.

(** X10.  With pairwise distinct degree-of-freedom numbers on the cell,
    [distribute_local] adds each local entry once onto the global entry at
    the numbers of its row and column and each local right-hand side entry
    onto the global one: what the global system held is kept underneath, and
    every other entry, and the length of the vector, is unchanged. *)
Theorem distribute_local_adds (fe : FiniteElement) (cell : Cell Point)
    (loc : LocalSystem) (sys : Matrix * Vector) :
  (forall i j, (i < dofs_per_cell)%nat -> (j < dofs_per_cell)%nat ->
     dof_indices fe cell i = dof_indices fe cell j -> i = j) ->
  let ldi := dof_indices fe cell in
  let sys' := distribute_local fe cell loc sys in
  (forall i j, (i < dofs_per_cell)%nat -> (j < dofs_per_cell)%nat ->
     sys'.1 (ldi i) (ldi j) = sys.1 (ldi i) (ldi j) + cell_matrix loc i j) /\
  (forall A B,
     (forall i j, (i < dofs_per_cell)%nat -> (j < dofs_per_cell)%nat ->
        ~ (A = ldi i /\ B = ldi j)) ->
     sys'.1 A B = sys.1 A B) /\
  (forall i, (i < dofs_per_cell)%nat ->
     sys'.2 !! ldi i = (fun x => x + cell_rhs loc i) <$> sys.2 !! ldi i) /\
  (forall A, (forall i, (i < dofs_per_cell)%nat -> A <> ldi i) ->
     sys'.2 !! A = sys.2 !! A) /\
  length sys'.2 = length sys.2.
Proof.
  intros Hinj ldi sys'. unfold sys', distribute_local. fold ldi.
  apply (for_loop_ind
           (fun k (st : Matrix * Vector) =>
              (forall i j, (i < k)%nat -> (j < dofs_per_cell)%nat ->
                 st.1 (ldi i) (ldi j) = sys.1 (ldi i) (ldi j) + cell_matrix loc i j) /\
              (forall A B,
                 (forall i j, (i < k)%nat -> (j < dofs_per_cell)%nat ->
                    ~ (A = ldi i /\ B = ldi j)) ->
                 st.1 A B = sys.1 A B) /\
              (forall i, (i < k)%nat ->
                 st.2 !! ldi i = (fun x => x + cell_rhs loc i) <$> sys.2 !! ldi i) /\
              (forall A, (forall i, (i < k)%nat -> A <> ldi i) ->
                 st.2 !! A = sys.2 !! A) /\
              length st.2 = length sys.2)).
  - split; [intros; lia|]. split; [reflexivity|]. split; [intros; lia|].
    split; reflexivity.
  - intros k st Hk (Hdone & Hrest & Hrd & Hrr & Hlen).
    destruct (scatter_row_spec ldi (ldi k) (cell_matrix loc k) st Hinj)
      as (R2 & Rdone & Rrest).
    cbv zeta in R2, Rdone, Rrest. cbv zeta. cbn [fst snd].
    split; [|split; [|split; [|split]]].
    + intros i j Hi Hj. destruct (decide (i = k)) as [->|Hne].
      * rewrite (Rdone j Hj). f_equal. apply Hrest.
        intros i' j' Hi' Hj' [Hc _]. apply Hinj in Hc; lia.
      * rewrite Rrest; [apply Hdone; lia|].
        intros j' Hj' [Hc _]. apply Hinj in Hc; lia.
    + intros A B Hno. rewrite Rrest.
      * apply Hrest. intros i j Hi Hj. apply Hno; lia.
      * intros j Hj. apply Hno; lia.
    + intros i Hi. rewrite R2. destruct (decide (i = k)) as [->|Hne].
      * rewrite list_lookup_alter_eq. f_equal. apply Hrr.
        intros i' Hi' Hc. apply Hinj in Hc; lia.
      * rewrite list_lookup_alter_ne; [apply Hrd; lia|].
        intros Hc. apply Hinj in Hc; lia.
    + intros A Hno. rewrite R2, list_lookup_alter_ne; [|intros Hc; apply (Hno k); auto].
      apply Hrr. intros i Hi. apply Hno. lia.
    + rewrite R2, length_alter. exact Hlen.
Qed.

(** X11.  A heat assembly that follows [solve_heat] does not see the
    temperature just solved for: the local systems of both schemes read
    [old_solution_heat], which the solve has set to the temperature it
    started from, so they are the same whatever the solver computed. *)
Theorem heat_assembly_after_solve_heat (max_iter : Z) (tol : float)
    (pc_ssor : bool) (ssor_param : float) (s : State) (cell : Cell Point)
    (loc : LocalSystem) :
  let after := final_state (solve_heat max_iter tol pc_ssor ssor_param s) in
  let before := with_old_solution_heat (solution_heat s) s in
  old_solution_heat after = solution_heat s /\
  crank_nicolson_cell after cell loc = crank_nicolson_cell before cell loc /\
  euler_implicit_cell after cell loc = euler_implicit_cell before cell loc.
Proof.
  intros after before. unfold after, before, solve_heat, SolverCG_solve.
  cbv zeta. simpl.
  destruct (raised _); simpl; repeat split; reflexivity.
Qed.

(** X12.  When every requested (cell, vertex) pair has its vertex index and
    its degree of freedom inside the vectors, [get_temperature] returns one
    entry per requested cell, the i-th being the temperature solution at the
    degree of freedom of the i-th pair: no entry keeps the marker [1e15] the
    result is first filled with. *)
Theorem get_temperature_entries (cell_indexes vert_indexes : list nat) (s : State) :
  (forall i c, cell_indexes !! i = Some c ->
     exists v t, vert_indexes !! i = Some v /\
                 solution_heat s !! vertex_dof_index fe_heat c v = Some t) ->
  exists temperatures,
    get_temperature cell_indexes vert_indexes s = Some temperatures /\
    length temperatures = length cell_indexes /\
    forall i c v, cell_indexes !! i = Some c -> vert_indexes !! i = Some v ->
      temperatures !! i = solution_heat s !! vertex_dof_index fe_heat c v.
Proof.
  intros Hok. unfold get_temperature.
  match goal with
  | |- exists t, for_loopM ?n ?body ?init = Some t /\ _ =>
      destruct (for_loopM_ind
                  (fun k (temps : list float) =>
                     length temps = length cell_indexes /\
                     forall i c v, (i < k)%nat ->
                       cell_indexes !! i = Some c -> vert_indexes !! i = Some v ->
                       temps !! i = solution_heat s !! vertex_dof_index fe_heat c v)
                  n body init) as (temps & Hrun & Hlen & Hall)
  end.
  3: { exists temps. split; [exact Hrun|]. split; [exact Hlen|].
       intros i c v Hc Hv. apply Hall; auto. apply lookup_lt_Some in Hc. exact Hc. }
  - split; [apply length_replicate | intros; lia].
  - intros k temps Hk [Hlen Hdone].
    destruct (lookup_lt_is_Some_2 cell_indexes k Hk) as [c Hc].
    destruct (Hok k c Hc) as (v & t & Hv & Ht).
    rewrite Hc, Hv. simpl. rewrite Ht. simpl. eexists. split; [reflexivity|].
    split; [rewrite length_insert; exact Hlen|].
    intros i c' v' Hi Hc' Hv'. destruct (decide (i = k)) as [->|Hne].
    + rewrite list_lookup_insert_eq by lia.
      assert (c' = c) by congruence. assert (v' = v) by congruence.
      subst. symmetry. exact Ht.
    + rewrite list_lookup_insert_ne by lia. apply Hdone; auto with lia.
Qed.

End FiniteElements.

(** **** A cell of the strip with a one-dimensional gradient *)

(** Two degrees of freedom and two quadrature points per cell, one
    quadrature point per face; gradients are numbers. *)
Definition toy_element : FiniteElement (float * float) float :=
  {| shape_value := fun _ i q => if (i =? q)%nat then 0.75 else 0.25;
     shape_grad := fun _ i _ => if (i =? 0)%nat then -1 else 1;
     JxW := fun _ _ => 0.5;
     face_shape_value := fun _ _ _ _ => 0.5;
     face_JxW := fun _ _ _ => 1;
     function_values := fun _ v q => nth q v 0;
     function_gradients := fun _ v _ => nth 1 v 0 - nth 0 v 0;
     face_function_values := fun _ _ v _ => nth 1 v 0;
     dof_indices := fun c i => (index c + i)%nat;
     vertex_dof_index := fun c v => (c + v)%nat;
     n_dofs := 3;
     interpolate_boundary_values := fun _ _ => ∅ |}.

Definition toy_state : State :=
  with_old_solution_heat [300; 400; 500]
    (with_old_solution_current [0; 1; 3]
       (with_current_system (fun _ _ => 0) [0; 0; 0] [0; 2; 4]
          (construct 1e-21 constant_pq))).

Definition toy_cell : Cell (float * float) :=
  {| index := 0; faces := [side 4 (0, 0.5); side 255 (1, 0.5);
                           side 3 (0.5, 0); side 1 (0.5, 1)] |}.

Definition toy_loc : LocalSystem :=
  {| cell_matrix := fun _ _ => 7; cell_rhs := fun _ => 7; max_heating_power := 0 |}.

Lemma crank_nicolson_local_system_witness :
  exists cn eu : LocalSystem,
    crank_nicolson_cell (float * float) 1 float PrimFloat.mul PrimFloat.mul
      (fun x => x * x) 2 2 1 toy_element toy_element toy_state toy_cell
      (clear_cell toy_loc) = Some cn /\
    euler_implicit_cell (float * float) 1 float PrimFloat.mul PrimFloat.mul
      (fun x => x * x) 2 2 1 toy_element toy_element toy_state toy_cell
      (clear_cell toy_loc) = Some eu /\
    cell_matrix cn 0%nat 1%nat = 0.042555658627087212 /\
    cell_matrix eu 0%nat 1%nat = -0.10238868274582558 /\
    cell_rhs cn 0%nat = 176.48712894248609 /\
    cell_rhs eu 0%nat = 162.21011131725419.
Proof.
  destruct (crank_nicolson_local_system (float * float) 1 float PrimFloat.mul
              PrimFloat.mul (fun x => x * x) 2 2 1 toy_element toy_element
              toy_state toy_cell toy_loc (fun _ _ => -6))
    as (cn & eu & Hcn & Heu & Hsys).
  { intros f face q _ _ _. reflexivity. }
  exists cn, eu. split; [exact Hcn|]. split; [exact Heu|].
  destruct (Hsys 0%nat ltac:(lia)) as (Hm & Hrc & Hre).
  destruct (Hm 1%nat ltac:(lia)) as [Hmc Hme].
  rewrite Hmc, Hme, Hrc, Hre. repeat split; vm_compute; reflexivity.
Defined.

(** **** Instances on the toy cell *)

Lemma current_local_system_witness :
  exists loc',
    for_faces (float * float) 0 (faces toy_cell)
      (current_face (float * float) 1 float 2 1 toy_element toy_element
         toy_state toy_cell)
      (current_volume (float * float) float PrimFloat.mul 2 2 toy_element
         toy_element toy_state toy_cell (clear_cell toy_loc)) = Some loc' /\
    cell_matrix loc' 0%nat 1%nat = -1 /\
    cell_rhs loc' 0%nat = 1.
Proof.
  destruct (current_local_system (float * float) 1 float PrimFloat.mul 2 2 1
              toy_element toy_element toy_state toy_cell toy_loc (fun _ _ => 2))
    as (loc' & Hloc & Hsys).
  { intros f face q _ _ _. reflexivity. }
  exists loc'. split; [exact Hloc|].
  destruct (Hsys 0%nat ltac:(lia)) as [Hm Hr].
  rewrite (Hm 1%nat ltac:(lia)), Hr. split; vm_compute; reflexivity.
Defined.

Definition ones_loc : LocalSystem :=
  {| cell_matrix := fun _ _ => 1; cell_rhs := fun _ => 2; max_heating_power := 0 |}.

Lemma distribute_local_adds_witness :
  let sys' := distribute_local (float * float) float 2 toy_element toy_cell
                ones_loc (fun _ _ => 10, [5; 6; 7]) in
  sys'.1 0%nat 1%nat = 10 + 1 /\
  sys'.1 2%nat 2%nat = 10 /\
  sys'.2 !! 1%nat = Some (6 + 2) /\
  sys'.2 !! 2%nat = Some 7.
Proof.
  intros sys'.
  destruct (distribute_local_adds (float * float) float 2 toy_element toy_cell
              ones_loc (fun _ _ => 10, [5; 6; 7]))
    as (Hadd & Hrest & Hradd & Hrrest & _).
  { intros i j _ _ H. simpl in H. exact H. }
  split; [exact (Hadd 0%nat 1%nat ltac:(lia) ltac:(lia))|].
  split; [apply Hrest; intros i j Hi Hj [H _]; simpl in H; lia|].
  split; [exact (Hradd 1%nat ltac:(lia))|].
  apply Hrrest. intros i Hi H. simpl in H. lia.
Defined.

Lemma get_temperature_entries_witness :
  get_temperature (float * float) float toy_element [0; 1]%nat [1; 1]%nat
    (with_heat_system (fun _ _ => 0) [] [300; 400; 500] toy_state)
  = Some [400; 500].
Proof.
  destruct (get_temperature_entries (float * float) float toy_element
              [0; 1]%nat [1; 1]%nat
              (with_heat_system (fun _ _ => 0) [] [300; 400; 500] toy_state))
    as (temps & Hrun & Hlen & Hall).
  { intros [|[|i]] c Hc; simpl in Hc; try discriminate;
      injection Hc as <-; eexists _, _; split; reflexivity. }
  rewrite Hrun. f_equal. apply list_eq. intros [|[|i]].
  - rewrite (Hall 0%nat 0%nat 1%nat eq_refl eq_refl). reflexivity.
  - rewrite (Hall 1%nat 1%nat 1%nat eq_refl eq_refl). reflexivity.
  - simpl. apply lookup_ge_None_2. simpl in Hlen. lia.
Defined.

End CurrentsAndHeating.
